(** * dev-events: the data-access and integrity layer

    A shallow embedding of

    - [lib/mongodb.ts]              the cached connection ([connectToDatabase]),
    - [app/api/events/[slug]]       the event-by-slug [GET] handler,
    - [database/event.model.ts]     [slugify], [normalizeTime], the Event schema
                                    and its pre-save hook,
    - [database/booking.model.ts]   the Booking schema and its pre-save hook,

    followed by the properties the specification states about them.

    JavaScript strings are modelled as [string] (a list of code units below
    U+0100, i.e. the Latin-1 range); inside the definitions they are handled
    as [list ascii]. *)

From Stdlib Require Import List Bool Arith ZArith Lia.
From Stdlib Require Import Ascii String DecimalString.
Import ListNotations.

Local Open Scope string_scope.
Local Open Scope list_scope.
Local Open Scope nat_scope.

(** ** JavaScript string primitives used by the sources *)

Module JsString.

Definition chars := list ascii.

Definition code (c : ascii) : nat := nat_of_ascii c.

Definition inRange (lo hi : nat) (c : ascii) : bool :=
  (lo <=? code c) && (code c <=? hi).

(** The character class [0-9]. *)
Definition isDigit (c : ascii) : bool := inRange 48 57 c.

(** The character class [a-z0-9]. *)
Definition isLowerAlnum (c : ascii) : bool := inRange 97 122 c || isDigit c.

Definition isHyphen (c : ascii) : bool := code c =? 45.
Definition isColon (c : ascii) : bool := code c =? 58.
Definition isAt (c : ascii) : bool := code c =? 64.
Definition isDot (c : ascii) : bool := code c =? 46.

(** ECMAScript WhiteSpace and LineTerminator code points below U+0100:
    TAB, LF, VT, FF, CR, SP and NBSP.  This is what [String.prototype.trim]
    strips and what [\s] matches. *)
Definition isSpace (c : ascii) : bool :=
  inRange 9 13 c || (code c =? 32) || (code c =? 160).

(** [String.prototype.toLowerCase] on one code unit: A-Z and the Latin-1
    capitals U+00C0..U+00DE (U+00D7, the multiplication sign, excepted) move
    up by 32. *)
Definition toLowerChar (c : ascii) : ascii :=
  if inRange 65 90 c || (inRange 192 222 c && negb (code c =? 215))
  then ascii_of_nat (code c + 32)
  else c.

Definition toLowerCase (l : chars) : chars := map toLowerChar l.

Fixpoint dropWhile (p : ascii -> bool) (l : chars) : chars :=
  match l with
  | [] => []
  | c :: r => if p c then dropWhile p r else l
  end.

Definition dropWhileEnd (p : ascii -> bool) (l : chars) : chars :=
  rev (dropWhile p (rev l)).

(** Length of the longest prefix whose characters all satisfy [p]: what a
    greedy [[p]+] consumes at this position. *)
Fixpoint runLength (p : ascii -> bool) (l : chars) : nat :=
  match l with
  | [] => 0
  | c :: r => if p c then S (runLength p r) else 0
  end.

Definition trimStart (l : chars) : chars := dropWhile isSpace l.
Definition trimEnd (l : chars) : chars := dropWhileEnd isSpace l.
Definition trim (l : chars) : chars := trimEnd (trimStart l).

(** [s.replace(re, repl)] for a global regular expression that never
    matches the empty string.  [matchAt atStart l] is the length of the
    match of [re] that begins at the current position ([0]: no match
    here), [atStart] telling whether the position is index 0 (for [^]).
    [skip] counts the characters of the current match still to be
    consumed; on a match the replacement is emitted once and the scan
    resumes right after the match. *)
Section Replace.
Variable matchAt : bool -> chars -> nat.
Variable repl : chars.

Fixpoint replaceFrom (skip : nat) (atStart : bool) (l : chars) : chars :=
  match l with
  | [] => []
  | c :: r =>
      match skip with
      | S k => replaceFrom k false r
      | O =>
          match matchAt atStart l with
          | O => c :: replaceFrom 0 false r
          | S k => repl ++ replaceFrom k false r
          end
      end
  end.

Definition replaceAll (l : chars) : chars := replaceFrom 0 true l.
End Replace.

(** [String.prototype.padStart(n, fill)] for a one-character [fill]. *)
Definition padStart (n : nat) (fill : ascii) (l : chars) : chars :=
  repeat fill (n - List.length l) ++ l.

(** [Number(s)] on a string of decimal digits; [None] stands for [NaN],
    the result on anything else that the sources can pass here. *)
Fixpoint digitsValue (acc : Z) (l : chars) : option Z :=
  match l with
  | [] => Some acc
  | c :: r =>
      if isDigit c
      then digitsValue (10 * acc + Z.of_nat (code c - 48)) r
      else None
  end.

Definition Number (l : chars) : option Z :=
  match l with
  | [] => None
  | _ => digitsValue 0 l
  end.

(** [Number.prototype.toString()] on an integer. *)
Definition toString (z : Z) : chars :=
  list_ascii_of_string (NilEmpty.string_of_int (Z.to_int z)).

End JsString.

Import JsString.

(** Outcome of an operation that can throw (or whose promise can reject). *)
Inductive Result (E A : Type) : Type :=
| Ok (a : A)
| Err (e : E).
Arguments Ok {E A} a.
Arguments Err {E A} e.

Definition bind {E A B} (r : Result E A) (k : A -> Result E B) : Result E B :=
  match r with
  | Ok a => k a
  | Err e => Err e
  end.

Notation "x <- r ;; k" := (bind r (fun x => k))
  (at level 61, r at next level, right associativity).

(** Why a [save()] rejects. *)
Inductive SaveError : Type :=
| ValidationError (paths : list string)  (* schema validation, failing paths *)
| HookError (message : string)           (* [throw new Error(message)] in a hook *)
| DuplicateKey (path : string).          (* refused by a unique index *)

(** Document identities ([Types.ObjectId]). *)
Definition ObjectId := N.

(** ** database/event.model.ts *)

Module EventModel.

(** [/[^a-z0-9]+/g] at a position: the greedy run of characters outside
    [a-z0-9]. *)
Definition matchNonAlnumRun (_ : bool) (l : chars) : nat :=
  runLength (fun c => negb (isLowerAlnum c)) l.

(** [/^-+|-+$/g] at a position: the first alternative needs index 0, the
    second needs the run of hyphens to reach the end of the string (a
    shorter run cannot be followed by the end, so backtracking adds
    nothing). *)
Definition matchEdgeHyphens (atStart : bool) (l : chars) : nat :=
  let h := runLength isHyphen l in
  if atStart && (0 <? h) then h
  else if (0 <? h) && (h =? List.length l) then h
  else 0.

Definition slugifyChars (value : chars) : chars :=
  replaceAll matchEdgeHyphens []
    (replaceAll matchNonAlnumRun ["-"%char]
       (trim (toLowerCase value))).

Definition slugify (value : string) : string :=
  string_of_list_ascii (slugifyChars (list_ascii_of_string value)).

(** [/^([0-9]{1,2}):([0-9]{2})$/.exec(s)]: the two capture groups. *)
Definition execTime (l : chars) : option (chars * chars) :=
  match l with
  | [h1; c; m1; m2] =>
      if isDigit h1 && isColon c && isDigit m1 && isDigit m2
      then Some ([h1], [m1; m2]) else None
  | [h1; h2; c; m1; m2] =>
      if isDigit h1 && isDigit h2 && isColon c && isDigit m1 && isDigit m2
      then Some ([h1; h2], [m1; m2]) else None
  | _ => None
  end.

Definition normalizeTimeChars (raw : chars) : option chars :=
  let trimmed := trim raw in
  match execTime trimmed with
  | None => None
  | Some (g1, g2) =>
      match Number g1, Number g2 with
      | Some hours, Some minutes =>
          if ((hours <? 0) || (hours >? 23) || (minutes <? 0) || (minutes >? 59))%Z
          then None
          else
            let hh := padStart 2 "0" (toString hours) in
            let mm := padStart 2 "0" (toString minutes) in
            Some (hh ++ ":"%char :: mm)
      | _, _ => None   (* not integers *)
      end
  end.

Definition normalizeTime (raw : string) : option string :=
  option_map string_of_list_ascii (normalizeTimeChars (list_ascii_of_string raw)).

Definition nonEmptyStringValidator (value : string) : bool :=
  0 <? List.length (trim (list_ascii_of_string value)).

(** [EventDocument].  A string path that is absent holds [""]; [slug], the
    one path the hook tests for presence, is an [option]. *)
Record EventDocument : Type := mkEvent {
  _id : ObjectId;
  title : string;
  slug : option string;
  description : string;
  overview : string;
  image : string;
  venue : string;
  location : string;
  date : string;
  time : string;
  mode : string;
  audience : string;
  agenda : list string;
  organizer : string;
  tags : list string;
  createdAt : Z;
  updatedAt : Z
}.

Definition setSlug (v : string) (d : EventDocument) : EventDocument :=
  mkEvent (_id d) (title d) (Some v) (description d) (overview d) (image d)
    (venue d) (location d) (date d) (time d) (mode d) (audience d)
    (agenda d) (organizer d) (tags d) (createdAt d) (updatedAt d).

Definition setDate (v : string) (d : EventDocument) : EventDocument :=
  mkEvent (_id d) (title d) (slug d) (description d) (overview d) (image d)
    (venue d) (location d) v (time d) (mode d) (audience d)
    (agenda d) (organizer d) (tags d) (createdAt d) (updatedAt d).

Definition setTime (v : string) (d : EventDocument) : EventDocument :=
  mkEvent (_id d) (title d) (slug d) (description d) (overview d) (image d)
    (venue d) (location d) (date d) v (mode d) (audience d)
    (agenda d) (organizer d) (tags d) (createdAt d) (updatedAt d).

(** JavaScript truthiness of a [string | null | undefined]. *)
Definition truthy (v : option string) : bool :=
  match v with
  | Some s => negb (s =? "")%string
  | None => false
  end.

(** The validator of a required, trimmed string path: [required] refuses
    the empty string, [nonEmptyStringValidator] a blank one. *)
Definition stringPathOk (v : string) : bool :=
  negb (v =? "")%string && nonEmptyStringValidator v.

(** The validator of [agenda] and of [tags]. *)
Definition stringArrayOk (value : list string) : bool :=
  (0 <? List.length value) && forallb nonEmptyStringValidator value.

Definition check (ok : bool) (path : string) : list string :=
  if ok then [] else [path].

(** Schema validation: the paths that fail, in schema order.  [slug] has
    neither [required] nor a validator. *)
Definition validate (d : EventDocument) : list string :=
  check (stringPathOk (title d)) "title"
  ++ check (stringPathOk (description d)) "description"
  ++ check (stringPathOk (overview d)) "overview"
  ++ check (stringPathOk (image d)) "image"
  ++ check (stringPathOk (venue d)) "venue"
  ++ check (stringPathOk (location d)) "location"
  ++ check (stringPathOk (date d)) "date"
  ++ check (stringPathOk (time d)) "time"
  ++ check (stringPathOk (mode d)) "mode"
  ++ check (stringPathOk (audience d)) "audience"
  ++ check (stringArrayOk (agenda d)) "agenda"
  ++ check (stringPathOk (organizer d)) "organizer"
  ++ check (stringArrayOk (tags d)) "tags".

Section Hook.
(** [new Date(s)] followed by [toISOString()]; [None] when [getTime()]
    is [NaN].  What [Date] accepts is left to the engine. *)
Variable parseDate : string -> option string.

(** [EventSchema.pre('save', ...)], [this] threaded through the three
    steps; [isModified] is the document's [isModified(path)].  The three
    assignments are plain field updates: the [trim] setter of the schema
    has nothing to remove from a slug, an ISO instant or an HH:MM time. *)
Definition preSave (isModified : string -> bool) (this : EventDocument)
  : Result SaveError EventDocument :=
  let this :=
    if isModified "title" || negb (truthy (slug this))
    then setSlug (slugify (title this)) this
    else this in
  this <-
    (if isModified "date"
     then match parseDate (date this) with
          | None =>
              Err (HookError "Invalid date format. Expected a value parsable by Date.")
          | Some iso => Ok (setDate iso this)
          end
     else Ok this) ;;
  if isModified "time"
  then
    let normalized := normalizeTime (time this) in
    match normalized with
    | Some t =>
        if truthy normalized then Ok (setTime t this)
        else Err (HookError "Invalid time format. Expected HH:MM (24-hour format).")
    | None => Err (HookError "Invalid time format. Expected HH:MM (24-hour format).")
    end
  else Ok this.

Definition sameSlug (a b : option string) : bool :=
  match a, b with
  | Some x, Some y => (x =? y)%string
  | None, None => true
  | _, _ => false
  end.

(** [save()] of a new document into the collection [coll]: schema
    validation runs first, then the pre-save hook (on a new document
    every path that was set is modified), then the insert, which the
    unique index on [slug] can refuse. *)
Definition saveNew (coll : list EventDocument) (doc : EventDocument)
  : Result SaveError (list EventDocument) :=
  match validate doc with
  | [] =>
      doc' <- preSave (fun _ => true) doc ;;
      if existsb (fun e => sameSlug (slug e) (slug doc')) coll
      then Err (DuplicateKey "slug")
      else Ok (coll ++ [doc'])
  | paths => Err (ValidationError paths)
  end.
End Hook.

End EventModel.

(** ** database/booking.model.ts *)

Module BookingModel.

Record BookingDocument : Type := mkBooking {
  _id : ObjectId;
  eventId : ObjectId;
  email : string;
  createdAt : Z;
  updatedAt : Z
}.

(** The class [[^\s@]]. *)
Definition emailChar (c : ascii) : bool := negb (isSpace c) && negb (isAt c).

(** [/^[^\s@]+@[^\s@]+\.[^\s@]+$/.test(s)]: a non-empty run of the class,
    an [@], then a rest made of the class only that has a dot which is
    neither its first nor its last character. *)
Definition EMAIL_REGEX_test (l : chars) : bool :=
  let n := runLength emailChar l in
  match skipn n l with
  | a :: domain =>
      (0 <? n) && isAt a && forallb emailChar domain
      && existsb isDot (removelast (tl domain))
  | [] => false
  end.

Definition validate (d : BookingDocument) : list string :=
  if negb (email d =? "")%string && EMAIL_REGEX_test (list_ascii_of_string (email d))
  then [] else ["email"].

(** The two collections. *)
Record Db : Type := mkDb {
  events : list EventModel.EventDocument;
  bookings : list BookingDocument
}.

(** [Event.exists({ _id: id })]. *)
Definition Event_exists (db : Db) (id : ObjectId) : bool :=
  existsb (fun e => (EventModel._id e =? id)%N) (events db).

(** [BookingSchema.pre('save', ...)]. *)
Definition preSave (db : Db) (this : BookingDocument) : Result SaveError unit :=
  let eventExists := Event_exists db (eventId this) in
  if negb eventExists
  then Err (HookError "Cannot create booking: referenced event does not exist.")
  else Ok tt.

(** [save()] of a new booking: validation, the hook, the insert.  The
    database after the call is returned next to the outcome. *)
Definition save (db : Db) (doc : BookingDocument) : Db * Result SaveError unit :=
  match validate doc with
  | [] =>
      match preSave db doc with
      | Ok _ => (mkDb (events db) (bookings db ++ [doc]), Ok tt)
      | Err e => (db, Err e)
      end
  | paths => (db, Err (ValidationError paths))
  end.

End BookingModel.

(** ** lib/mongodb.ts *)

Module Mongodb.

(** The Mongoose object a connect attempt resolves to, and the reason it
    rejects with. *)
Definition Handle := nat.
Definition Reason := nat.

(** Every promise of the heap is one [mongoose.connect(...).then(...)]:
    one underlying connect attempt. *)
Inductive PromiseState : Type :=
| Pending
| Fulfilled (h : Handle)
| Rejected (e : Reason).

Definition PromiseRef := nat.

(** The module-level [cached] object. *)
Record Cache : Type := mkCache {
  conn : option Handle;
  promise : option PromiseRef
}.

(** One invocation of [connectToDatabase]: not yet made, suspended at
    [await cached.promise], or completed. *)
Inductive Caller : Type :=
| NotCalled
| Awaiting (p : PromiseRef)
| Returned (h : Handle)
| Threw (e : Reason).

Record State : Type := mkState {
  cached : Cache;
  published : bool;   (* [globalThis._mongooseCache] is [cached] *)
  heap : list PromiseState;
  callers : list Caller
}.

Fixpoint update {A} (i : nat) (x : A) (l : list A) : list A :=
  match l, i with
  | [], _ => []
  | _ :: r, O => x :: r
  | y :: r, S j => y :: update j x r
  end.

(** [connectToDatabase] from its entry to the first suspension: lines
    41-59 up to the [await].  Returns the cache, the heap and what the
    invocation is now doing. *)
Definition enter (c : Cache) (hp : list PromiseState)
  : Cache * list PromiseState * Caller :=
  match conn c with
  | Some h => (c, hp, Returned h)
  | None =>
      match promise c with
      | None =>
          let p := List.length hp in
          (mkCache (conn c) (Some p), hp ++ [Pending], Awaiting p)
      | Some p => (c, hp, Awaiting p)
      end
  end.

(** The continuation of [cached.conn = await cached.promise] once the
    awaited promise is settled: lines 59-62. *)
Definition resume (c : Cache) (pub : bool) (outcome : PromiseState)
  : option (Cache * bool * Caller) :=
  match outcome with
  | Pending => None
  | Fulfilled h => Some (mkCache (Some h) (promise c), true, Returned h)
  | Rejected e => Some (c, pub, Threw e)
  end.

(** What can happen next in the single-threaded event loop. *)
Inductive Event : Type :=
| Call (i : nat)                                  (* caller [i] invokes the function *)
| Settle (p : PromiseRef) (r : Result Reason Handle) (* the driver settles attempt [p] *)
| Resume (i : nat).                               (* caller [i] resumes after its await *)

Definition step (ev : Event) (s : State) : option State :=
  match ev with
  | Call i =>
      match nth_error (callers s) i with
      | Some NotCalled =>
          let '(c, hp, k) := enter (cached s) (heap s) in
          Some (mkState c (published s) hp (update i k (callers s)))
      | _ => None
      end
  | Settle p r =>
      match nth_error (heap s) p with
      | Some Pending =>
          let v := match r with Ok h => Fulfilled h | Err e => Rejected e end in
          Some (mkState (cached s) (published s) (update p v (heap s)) (callers s))
      | _ => None
      end
  | Resume i =>
      match nth_error (callers s) i with
      | Some (Awaiting p) =>
          match nth_error (heap s) p with
          | Some outcome =>
              match resume (cached s) (published s) outcome with
              | Some (c, pub, k) =>
                  Some (mkState c pub (heap s) (update i k (callers s)))
              | None => None
              end
          | None => None
          end
      | _ => None
      end
  end.

Fixpoint run (tr : list Event) (s : State) : option State :=
  match tr with
  | [] => Some s
  | ev :: rest =>
      match step ev s with
      | Some s' => run rest s'
      | None => None
      end
  end.

(** A fresh module instance ([globalThis._mongooseCache] undefined) and
    [n] invocations still to come. *)
Definition init (n : nat) : State :=
  mkState (mkCache None None) false [] (repeat NotCalled n).

Definition isPending (p : PromiseState) : bool :=
  match p with Pending => true | _ => false end.

Definition attempts (s : State) : nat := List.length (heap s).
Definition outstanding (s : State) : nat := List.length (filter isPending (heap s)).

Definition isDone (k : Caller) : bool :=
  match k with Returned _ | Threw _ => true | _ => false end.

Definition finished (s : State) : bool := forallb isDone (callers s).

End Mongodb.

(** ** app/api/events/[slug]/route.ts *)

Module Route.

(** [/^[a-z0-9]+(?:-[a-z0-9]+)*$/.test(s)], read as the automaton of the
    expression: [inSegment] holds when the last character read was one of
    [a-z0-9], the only positions where a hyphen or the end may follow. *)
Fixpoint slugRest (inSegment : bool) (l : chars) : bool :=
  match l with
  | [] => inSegment
  | c :: r =>
      if isLowerAlnum c then slugRest true r
      else if isHyphen c && inSegment then slugRest false r
      else false
  end.

Definition SLUG_REGEX_test (s : string) : bool :=
  slugRest false (list_ascii_of_string s).

Definition Exn := string.

Record NextResponse : Type := mkResponse {
  status : nat;
  message : string;
  event : option EventModel.EventDocument
}.

Definition jsonError (message : string) (status : nat) : NextResponse :=
  mkResponse status message None.

(** The request as the handler reads it: [context.params] (a promise that
    rejects, or resolves to an object whose [slug] may be missing) and
    [new URL(req.url).searchParams.get("slug")]. *)
Record Request : Type := mkRequest {
  params : Result Exn (option string);
  querySlug : option string
}.

Definition nonBlank (s : string) : bool :=
  0 <? List.length (trim (list_ascii_of_string s)).

Definition getSlug (req : Request) : option string :=
  let fromParams :=
    match params req with
    | Ok resolved => resolved
    | Err _ => None   (* the [catch] leaves [fromParams] null *)
    end in
  let fromQuery := querySlug req in
  match fromParams with
  | Some s =>
      if nonBlank s then Some s
      else match fromQuery with
           | Some q => if nonBlank q then Some q else None
           | None => None
           end
  | None =>
      match fromQuery with
      | Some q => if nonBlank q then Some q else None
      | None => None
      end
  end.

(** The database as the handler sees it. *)
Record Backend : Type := mkBackend {
  connectToDatabase : Result Exn Mongodb.Handle;
  findOne : string -> Result Exn (option EventModel.EventDocument)
}.

Inductive DbCall : Type :=
| CallConnect
| CallFindOne (slug : string).

(** Handler code: it may throw, and it leaves a log of the calls it made
    to the database. *)
Definition Eff (A : Type) : Type := list DbCall -> Result Exn A * list DbCall.

Definition ret {A} (a : A) : Eff A := fun log => (Ok a, log).

Definition andThen {A B} (m : Eff A) (k : A -> Eff B) : Eff B :=
  fun log =>
    match m log with
    | (Ok a, log') => k a log'
    | (Err e, log') => (Err e, log')
    end.

Definition await {A} (call : DbCall) (outcome : Result Exn A) : Eff A :=
  fun log => (outcome, log ++ [call]).

Notation "x <~ m ;; k" := (andThen m (fun x => k))
  (at level 61, m at next level, right associativity).

Definition missingSlug : NextResponse :=
  jsonError
    "Missing required slug. Use /api/events/{slug} (preferred) or /api/events?slug={slug}."
    400.

Definition invalidSlug : NextResponse :=
  jsonError
    "Invalid slug format. Expected lowercase letters/numbers with optional hyphens (e.g. 'my-event-1')."
    400.

(** The body of the [try] block of [GET].  [!slug] holds for [null] and
    for the empty string. *)
Definition tryBody (be : Backend) (req : Request) : Eff NextResponse :=
  match getSlug req with
  | None => ret missingSlug
  | Some slug =>
      if (slug =? "")%string then ret missingSlug
      else if negb (SLUG_REGEX_test slug) then ret invalidSlug
      else
        _ <~ await CallConnect (connectToDatabase be) ;;
        event <~ await (CallFindOne slug) (findOne be slug) ;;
        match event with
        | None => ret (jsonError "Event not found." 404)
        | Some ev => ret (mkResponse 200 "Event fetched successfully" (Some ev))
        end
  end.

(** [GET]: the [try] block, and the [catch] that turns anything thrown
    into a 500. *)
Definition GET (be : Backend) (req : Request) : NextResponse * list DbCall :=
  match tryBody be req [] with
  | (Ok response, log) => (response, log)
  | (Err _, log) => (jsonError "Unexpected server error." 500, log)
  end.

End Route.

(** ** The specification's wording, for comparison with the code *)

Module Spec.

(** The maximal runs of a string, each tagged with whether its characters
    lie outside [a-z0-9]. *)
Fixpoint maximalRuns (l : chars) : list (bool * chars) :=
  match l with
  | [] => []
  | c :: r =>
      let outside := negb (isLowerAlnum c) in
      match maximalRuns r with
      | (o, run) :: rest =>
          if Bool.eqb o outside then (o, c :: run) :: rest
          else (outside, [c]) :: (o, run) :: rest
      | [] => [(outside, [c])]
      end
  end.

(** "replace every maximal run of characters outside [a-z0-9] with a
    single hyphen" *)
Definition hyphenateRuns (l : chars) : chars :=
  List.concat (map (fun r : bool * chars => if fst r then ["-"%char] else snd r)
              (maximalRuns l)).

(** "strip leading/trailing hyphens" *)
Definition stripHyphens (l : chars) : chars :=
  dropWhileEnd isHyphen (dropWhile isHyphen l).

Definition slugify (title : string) : string :=
  string_of_list_ascii
    (stripHyphens (hyphenateRuns (toLowerCase (list_ascii_of_string title)))).

(** The text before the first colon and the text after it. *)
Fixpoint splitAtColon (l : chars) : option (chars * chars) :=
  match l with
  | [] => None
  | c :: r =>
      if isColon c then Some ([], r)
      else match splitAtColon r with
           | Some (h, m) => Some (c :: h, m)
           | None => None
           end
  end.

Definition decimal (l : chars) : nat :=
  fold_left (fun acc c => 10 * acc + (code c - 48)) l 0.

(** "1-2 digit hour, exactly 2-digit minute", hour at most 23 and minute
    at most 59. *)
Definition matchesTime (l : chars) : bool :=
  match splitAtColon l with
  | Some (h, m) =>
      forallb isDigit h && (1 <=? List.length h) && (List.length h <=? 2)
      && forallb isDigit m && (List.length m =? 2)
      && (decimal h <=? 23) && (decimal m <=? 59)
  | None => false
  end.

(** "zero-padded HH:MM" *)
Definition zeroPadded (l : chars) : chars :=
  match splitAtColon l with
  | Some (h, m) => padStart 2 "0" h ++ ":"%char :: m
  | None => l
  end.

(** The canonical slug pattern [^[a-z0-9]+(-[a-z0-9]+)*$], spelled out:
    non-empty segments of [a-z0-9] joined by single hyphens. *)
Definition segment (l : chars) : Prop := l <> [] /\ forallb isLowerAlnum l = true.

Inductive canonicalSlug : chars -> Prop :=
| slug_one : forall seg, segment seg -> canonicalSlug seg
| slug_more : forall seg rest,
    segment seg -> canonicalSlug rest -> canonicalSlug (seg ++ "-"%char :: rest).

End Spec.

(** ** Auxiliary definitions used in the proofs *)

Import EventModel.

(** One left-to-right pass that emits a hyphen where a run of characters
    outside [a-z0-9] begins; [inRun] tells that such a run is being read. *)
Fixpoint collapse (inRun : bool) (l : chars) : chars :=
  match l with
  | [] => []
  | c :: r =>
      if isLowerAlnum c then c :: collapse false r
      else if inRun then collapse true r
      else "-"%char :: collapse true r
  end.

(** [dropWhileEnd] without the two reversals. *)
Fixpoint stripEnd (p : ascii -> bool) (l : chars) : chars :=
  match l with
  | [] => []
  | c :: r => if p c && forallb p r then [] else c :: stripEnd p r
  end.

(** The shape of a slug: characters of [a-z0-9-] only, no hyphen next to
    another one. *)
Definition slugChar (c : ascii) : bool := isLowerAlnum c || isHyphen c.

Definition startsWithHyphen (l : chars) : bool :=
  match l with
  | c :: _ => isHyphen c
  | [] => false
  end.

Fixpoint noDoubleHyphen (l : chars) : bool :=
  match l with
  | [] => true
  | c :: r => negb (isHyphen c && startsWithHyphen r) && noDoubleHyphen r
  end.

(** Sample data: a valid event whose title is all punctuation, a stored
    event that changes its title, and a database with one event. *)
Definition punctuationEvent : EventDocument :=
  mkEvent 7%N "!!!" None "A meetup" "Talks and demos" "/images/e.png"
    "Hall 1" "Berlin" "2025-04-10" "9:30" "offline" "developers"
    ["Opening"; "Talks"] "ACME" ["cloud"] 0%Z 0%Z.

Definition renamedEvent : EventDocument :=
  mkEvent 1%N "Cloud Next 2027" (Some "cloud-next") "A meetup" "Talks and demos"
    "/images/e.png" "Hall 1" "Berlin" "2025-04-10T00:00:00.000Z" "09:30"
    "offline" "developers" ["Opening"; "Talks"] "ACME" ["cloud"] 0%Z 0%Z.

Definition titleOnly (path : string) : bool := (path =? "title")%string.

Definition sampleDb : BookingModel.Db :=
  BookingModel.mkDb [renamedEvent]
    [BookingModel.mkBooking 10%N 1%N "a@example.com" 0%Z 0%Z;
     BookingModel.mkBooking 11%N 1%N "b@example.com" 0%Z 0%Z].

Definition danglingBooking : BookingModel.BookingDocument :=
  BookingModel.mkBooking 12%N 2%N "c@example.com" 0%Z 0%Z.

Definition emptyBackend : Route.Backend :=
  Route.mkBackend (Ok 0) (fun _ => Ok None).

Definition malformedRequest : Route.Request :=
  Route.mkRequest (Ok (Some "My Event")) (Some "my-event-1").

Definition queryRequest : Route.Request :=
  Route.mkRequest (Err "params rejected") (Some "my-event-1").

(** What the cache and a settled or pending attempt allow a caller to be. *)
Definition callerOk (p : Mongodb.PromiseState) (k : Mongodb.Caller) : Prop :=
  match k with
  | Mongodb.NotCalled => True
  | Mongodb.Awaiting q => q = 0
  | Mongodb.Returned h => p = Mongodb.Fulfilled h
  | Mongodb.Threw e => p = Mongodb.Rejected e
  end.

(** The invariant of the connection cache: no attempt yet, the slot empty
    and nobody called; or exactly one attempt, held by the slot, that every
    caller past its entry is bound to. *)
Definition cacheInv (s : Mongodb.State) : Prop :=
  match Mongodb.heap s with
  | [] =>
      Mongodb.cached s = Mongodb.mkCache None None
      /\ Forall (fun k => k = Mongodb.NotCalled) (Mongodb.callers s)
  | [p] =>
      Mongodb.promise (Mongodb.cached s) = Some 0
      /\ (forall h, Mongodb.conn (Mongodb.cached s) = Some h -> p = Mongodb.Fulfilled h)
      /\ Forall (callerOk p) (Mongodb.callers s)
  | _ => False
  end.

(** What is left to do: an invocation not yet made still has to enter and
    to resume, and may start an attempt that has to settle. *)
Definition callerWork (k : Mongodb.Caller) : nat :=
  match k with
  | Mongodb.NotCalled => 3
  | Mongodb.Awaiting _ => 1
  | _ => 0
  end.

Definition promiseWork (p : Mongodb.PromiseState) : nat :=
  match p with
  | Mongodb.Pending => 1
  | _ => 0
  end.

Definition work (s : Mongodb.State) : nat :=
  list_sum (map callerWork (Mongodb.callers s))
  + list_sum (map promiseWork (Mongodb.heap s)).

(** Two new events whose titles differ in case and punctuation only, and a
    date parser that accepts everything. *)
Definition cloudEvent : EventDocument :=
  mkEvent 21%N "Cloud Next 2027" None "A meetup" "Talks and demos"
    "/images/e.png" "Hall 1" "Berlin" "2025-04-10" "8:30" "hybrid"
    "developers" ["Keynote"] "ACME" ["cloud"] 0%Z 0%Z.

Definition cloudEventAgain : EventDocument :=
  mkEvent 22%N "cloud-next 2027!" None "Another meetup" "More talks"
    "/images/f.png" "Hall 2" "Paris" "2025-05-11" "10:00" "online"
    "developers" ["Keynote"] "ACME" ["cloud"] 0%Z 0%Z.

Definition midnightUTC (s : string) : option string :=
  Some (s ++ "T00:00:00.000Z")%string.

Definition fixedInstant (_ : string) : option string :=
  Some "2025-04-10T00:00:00.000Z".

(** The stored form of a time: two digits, a colon, two digits, at most
    23 hours and 59 minutes. *)
Definition canonicalTime (l : chars) : bool :=
  match l with
  | [h1; h2; c; m1; m2] =>
      isDigit h1 && isDigit h2 && isColon c && isDigit m1 && isDigit m2
      && (Spec.decimal [h1; h2] <=? 23) && (Spec.decimal [m1; m2] <=? 59)
  | _ => false
  end.

(** A character that [slugify] drops or turns into a separator: one whose
    lower-case form is outside [a-z0-9]. *)
Definition separator (c : ascii) : bool := negb (isLowerAlnum (toLowerChar c)).

(** The form [local@domain.tld] that [EMAIL_REGEX] describes: three
    non-empty parts free of whitespace and of [@]. *)
Definition emailPart (l : chars) : Prop :=
  l <> [] /\ forallb BookingModel.emailChar l = true.

Definition emailShape (l : chars) : Prop :=
  exists a b c,
    l = a ++ "@"%char :: b ++ "."%char :: c
    /\ emailPart a /\ emailPart b /\ emailPart c.

(** [Event.findOne({ slug })] on a collection, and the handler's database
    when the connection is up and the collection is [coll]. *)
Definition findOneIn (coll : list EventDocument) (s : string)
  : option EventDocument :=
  find (fun e => sameSlug (slug e) (Some s)) coll.

Definition backendOf (h : Mongodb.Handle) (coll : list EventDocument)
  : Route.Backend :=
  Route.mkBackend (Ok h) (fun s => Ok (findOneIn coll s)).

(** The cache invariant, with what the slot and the global tell about the
    callers: a caller that returned left its handle in [cached.conn], and
    the cache is published exactly when it holds a handle. *)
Definition handleInv (s : Mongodb.State) : Prop :=
  cacheInv s
  /\ (forall i h, nth_error (Mongodb.callers s) i = Some (Mongodb.Returned h) ->
                  Mongodb.conn (Mongodb.cached s) = Some h)
  /\ (Mongodb.published s = true <-> Mongodb.conn (Mongodb.cached s) <> None).

(** * Properties *)

(** ** Characters *)

Ltac ascii_cases c :=
  destruct c as [[] [] [] [] [] [] [] []]; try reflexivity; try discriminate.

Lemma alnum_not_hyphen c : isLowerAlnum c = true -> isHyphen c = false.
Proof. ascii_cases c. Qed.

Lemma hyphen_is c : isHyphen c = true -> c = "-"%char.
Proof. ascii_cases c. Qed.

Lemma lower_slugChar c : slugChar c = true -> toLowerChar c = c.
Proof. ascii_cases c. Qed.

Lemma digit_not_colon c : isDigit c = true -> isColon c = false.
Proof. ascii_cases c. Qed.

(** ** Lists of characters *)

Lemma dropWhile_app p x y :
  dropWhile p (x ++ y) = if forallb p x then dropWhile p y else dropWhile p x ++ y.
Proof.
  induction x as [|c x IH]; simpl; [reflexivity|].
  destruct (p c); simpl; [exact IH | reflexivity].
Qed.

Lemma forallb_rev (p : ascii -> bool) l : forallb p (rev l) = forallb p l.
Proof.
  induction l as [|c l IH]; simpl; [reflexivity|].
  rewrite forallb_app, IH; simpl.
  rewrite andb_true_r. apply andb_comm.
Qed.

Lemma dropWhile_all p l : forallb p l = true -> dropWhile p l = [].
Proof.
  induction l as [|c l IH]; simpl; [reflexivity|].
  destruct (p c); simpl; [exact IH | discriminate].
Qed.

Lemma stripEnd_all p l : forallb p l = true -> stripEnd p l = [].
Proof.
  destruct l as [|c l]; simpl; [reflexivity|].
  intros ->. reflexivity.
Qed.

Lemma dropWhileEnd_stripEnd p l : dropWhileEnd p l = stripEnd p l.
Proof.
  unfold dropWhileEnd.
  induction l as [|c l IH]; simpl; [reflexivity|].
  rewrite dropWhile_app, forallb_rev.
  destruct (forallb p l) eqn:All.
  - rewrite andb_true_r. simpl. rewrite (stripEnd_all p l All).
    destruct (p c); reflexivity.
  - rewrite andb_false_r, rev_app_distr. simpl. now rewrite IH.
Qed.

Lemma stripEnd_nil_iff p l : stripEnd p l = [] <-> forallb p l = true.
Proof.
  split; [|apply stripEnd_all].
  destruct l as [|c l]; simpl; [reflexivity|].
  destruct (p c && forallb p l); [reflexivity | discriminate].
Qed.

Lemma stripEnd_cons p c y :
  stripEnd p (c :: y) =
  match stripEnd p y with
  | [] => if p c then [] else [c]
  | z => c :: z
  end.
Proof.
  simpl. destruct (forallb p y) eqn:A.
  - rewrite (stripEnd_all p y A), andb_true_r. reflexivity.
  - rewrite andb_false_r. destruct (stripEnd p y) eqn:E; [|reflexivity].
    apply stripEnd_nil_iff in E. congruence.
Qed.

Lemma skipn_runLength p l : skipn (runLength p l) l = dropWhile p l.
Proof.
  induction l as [|c l IH]; simpl; [reflexivity|].
  destruct (p c); simpl; [exact IH | reflexivity].
Qed.

Lemma runLength_le p l : runLength p l <= List.length l.
Proof.
  induction l as [|c l IH]; simpl; [lia|].
  destruct (p c); simpl; lia.
Qed.

Lemma runLength_full p l : runLength p l = List.length l <-> forallb p l = true.
Proof.
  induction l as [|c l IH]; simpl; [tauto|].
  destruct (p c); simpl.
  - rewrite <- IH. lia.
  - split; [lia | discriminate].
Qed.

(** ** The two replacements of [slugify] *)

(** The first [replace] is the one-pass [collapse]: at a position outside a
    match it starts a fresh run, inside a match it is reading one. *)
Lemma replace_nonAlnum_collapse l :
  (forall b, replaceFrom matchNonAlnumRun ["-"%char] 0 b l = collapse false l)
  /\ replaceFrom matchNonAlnumRun ["-"%char]
       (runLength (fun c => negb (isLowerAlnum c)) l) false l = collapse true l.
Proof.
  induction l as [|c l [IH0 IHrun]]; [split; reflexivity|].
  unfold matchNonAlnumRun in *. simpl.
  destruct (isLowerAlnum c) eqn:A; simpl.
  - split; intros; now rewrite IH0.
  - split; intros; now rewrite IHrun.
Qed.

Lemma collapse_skips_outside l c :
  isLowerAlnum c = false -> collapse true (c :: l) = collapse true l.
Proof. simpl. now intros ->. Qed.

Lemma collapse_maximalRuns l :
  collapse false l = Spec.hyphenateRuns l
  /\ collapse true l =
     match Spec.maximalRuns l with
     | (true, _) :: rest =>
         List.concat (map (fun r : bool * chars => if fst r then ["-"%char] else snd r) rest)
     | _ => Spec.hyphenateRuns l
     end.
Proof.
  unfold Spec.hyphenateRuns.
  induction l as [|c l [IH0 IH1]]; [split; reflexivity|].
  simpl. rewrite IH0, IH1.
  destruct (isLowerAlnum c) eqn:A; simpl;
    destruct (Spec.maximalRuns l) as [|[[] run] rest]; simpl; split; reflexivity.
Qed.

Theorem replace_nonAlnum_spec l :
  replaceAll matchNonAlnumRun ["-"%char] l = Spec.hyphenateRuns l.
Proof.
  unfold replaceAll.
  rewrite (proj1 (replace_nonAlnum_collapse l)).
  apply collapse_maximalRuns.
Qed.

(** Consuming the rest of a match. *)
Lemma replaceFrom_skip m repl k l b :
  replaceFrom m repl (S k) b l = replaceFrom m repl 0 false (skipn (S k) l).
Proof.
  revert l b. induction k as [|k IH]; intros [|c l] b; try reflexivity.
  change (replaceFrom m repl (S k) false l
          = replaceFrom m repl 0 false (skipn (S k) l)).
  apply IH.
Qed.

Lemma replaceFrom_whole m repl l b :
  replaceFrom m repl (List.length l) b l = [].
Proof.
  revert b. induction l as [|c l IH]; intros b; [reflexivity|].
  simpl. apply IH.
Qed.

Lemma matchEdgeHyphens_eq atStart l :
  matchEdgeHyphens atStart l =
  if atStart && (0 <? runLength isHyphen l) then runLength isHyphen l
  else if (0 <? runLength isHyphen l) && (runLength isHyphen l =? List.length l)
       then runLength isHyphen l
       else 0.
Proof. reflexivity. Qed.

(** Past index 0 the second [replace] only removes a run of hyphens that
    ends the string. *)
Lemma replace_edge_inner l :
  replaceFrom matchEdgeHyphens [] 0 false l = stripEnd isHyphen l.
Proof.
  induction l as [|c l IH]; [reflexivity|].
  cbn [replaceFrom stripEnd]. rewrite matchEdgeHyphens_eq.
  cbn [andb]. cbn [runLength List.length].
  destruct (isHyphen c) eqn:Hc; cbn [andb Nat.ltb Nat.leb].
  - destruct (forallb isHyphen l) eqn:All.
    + apply runLength_full in All. rewrite All.
      cbn [Nat.eqb]. rewrite Nat.eqb_refl. cbn [app].
      apply replaceFrom_whole.
    + assert (runLength isHyphen l <> List.length l) as Hne.
      { intro E. apply runLength_full in E. congruence. }
      cbn [Nat.eqb]. apply Nat.eqb_neq in Hne. rewrite Hne.
      now rewrite IH.
  - now rewrite IH.
Qed.

Theorem replace_edge_spec l :
  replaceAll matchEdgeHyphens [] l = Spec.stripHyphens l.
Proof.
  unfold replaceAll, Spec.stripHyphens.
  rewrite dropWhileEnd_stripEnd.
  destruct l as [|c l]; [reflexivity|].
  cbn [replaceFrom dropWhile]. rewrite matchEdgeHyphens_eq.
  cbn [runLength List.length].
  destruct (isHyphen c) eqn:Hc; cbn [andb Nat.ltb Nat.leb app].
  - pose proof (runLength_le isHyphen l) as Hle.
    destruct (runLength isHyphen l) as [|k] eqn:Hr.
    + rewrite replace_edge_inner. f_equal.
      rewrite <- skipn_runLength, Hr. reflexivity.
    + rewrite replaceFrom_skip.
      rewrite replace_edge_inner, <- Hr, skipn_runLength. reflexivity.
  - rewrite replace_edge_inner. cbn [stripEnd]. now rewrite Hc.
Qed.

(** ** [trim] does not change a slug *)

Lemma collapse_true_no_leading_hyphen t :
  dropWhile isHyphen (collapse true t) = collapse true t.
Proof.
  induction t as [|c r IH]; [reflexivity|].
  simpl. destruct (isLowerAlnum c) eqn:A; [|exact IH].
  simpl. now rewrite (alnum_not_hyphen c A).
Qed.

Lemma strip_leading_collapse t :
  dropWhile isHyphen (collapse false t) = collapse true t.
Proof.
  destruct t as [|c r]; [reflexivity|].
  simpl. destruct (isLowerAlnum c) eqn:A.
  - simpl. now rewrite (alnum_not_hyphen c A).
  - simpl. apply collapse_true_no_leading_hyphen.
Qed.

Lemma space_not_alnum c : isSpace c = true -> isLowerAlnum c = false.
Proof. ascii_cases c. Qed.

Lemma collapse_trimStart x : collapse true (trimStart x) = collapse true x.
Proof.
  unfold trimStart. induction x as [|c r IH]; [reflexivity|].
  cbn [dropWhile]. destruct (isSpace c) eqn:S; [|reflexivity].
  rewrite (collapse_skips_outside r c (space_not_alnum c S)). exact IH.
Qed.

Lemma collapse_blank x b :
  forallb isSpace x = true -> stripEnd isHyphen (collapse b x) = [].
Proof.
  revert b. induction x as [|c r IH]; intros b; [reflexivity|].
  simpl. intros H. apply andb_prop in H as [S All].
  rewrite (space_not_alnum c S).
  destruct b; [now apply IH|].
  rewrite stripEnd_cons, (IH true All). reflexivity.
Qed.

Lemma collapse_trimEnd x b :
  stripEnd isHyphen (collapse b (trimEnd x)) = stripEnd isHyphen (collapse b x).
Proof.
  unfold trimEnd. rewrite dropWhileEnd_stripEnd.
  revert b. induction x as [|c r IH]; intros b; [reflexivity|].
  cbn [stripEnd].
  destruct (isSpace c && forallb isSpace r) eqn:Blank.
  - symmetry. apply collapse_blank. exact Blank.
  - cbn [collapse]. destruct (isLowerAlnum c) eqn:A.
    + rewrite !stripEnd_cons, IH. reflexivity.
    + destruct b; [apply IH|].
      rewrite !stripEnd_cons, IH. reflexivity.
Qed.

Lemma slugifyChars_spec l :
  slugifyChars l = Spec.stripHyphens (Spec.hyphenateRuns (toLowerCase l)).
Proof.
  unfold slugifyChars.
  rewrite replace_edge_spec, replace_nonAlnum_spec.
  unfold Spec.stripHyphens.
  rewrite <- !(proj1 (collapse_maximalRuns _)).
  rewrite !dropWhileEnd_stripEnd, !strip_leading_collapse.
  unfold trim. now rewrite collapse_trimEnd, collapse_trimStart.
Qed.

(** C5.  For every input string, [slugify] is the lowercased string in
    which every maximal run of characters outside [a-z0-9] is replaced by a
    single hyphen and from which leading and trailing hyphens are stripped;
    in particular "Cloud Next 2027" gives "cloud-next-2027" and
    "  A///B  " gives "a-b". *)
Theorem slugify_matches_spec :
  (forall s, slugify s = Spec.slugify s)
  /\ slugify "Cloud Next 2027" = "cloud-next-2027"
  /\ slugify "  A///B  " = "a-b".
Proof.
  split; [|split; reflexivity].
  intros s. unfold slugify, Spec.slugify. now rewrite slugifyChars_spec.
Qed.

(** ** The shape of a slug, and idempotence *)

Lemma slugifyChars_collapse l :
  slugifyChars l = stripEnd isHyphen (collapse true (toLowerCase l)).
Proof.
  rewrite slugifyChars_spec. unfold Spec.stripHyphens.
  rewrite <- (proj1 (collapse_maximalRuns _)).
  now rewrite dropWhileEnd_stripEnd, strip_leading_collapse.
Qed.

Lemma collapse_true_head x : startsWithHyphen (collapse true x) = false.
Proof.
  induction x as [|c r IH]; [reflexivity|].
  simpl. destruct (isLowerAlnum c) eqn:A; [|exact IH].
  simpl. apply alnum_not_hyphen, A.
Qed.

Lemma collapse_slugChars b x : forallb slugChar (collapse b x) = true.
Proof.
  revert b. induction x as [|c r IH]; intros b; [reflexivity|].
  simpl. destruct (isLowerAlnum c) eqn:A.
  - simpl. unfold slugChar at 1. rewrite A. apply IH.
  - destruct b; [apply IH|]. simpl. apply IH.
Qed.

Lemma collapse_noDoubleHyphen b x : noDoubleHyphen (collapse b x) = true.
Proof.
  revert b. induction x as [|c r IH]; intros b; [reflexivity|].
  simpl. destruct (isLowerAlnum c) eqn:A.
  - simpl. rewrite (alnum_not_hyphen c A). apply IH.
  - destruct b; [apply IH|]. simpl.
    rewrite collapse_true_head. apply IH.
Qed.

Lemma stripEnd_head p y :
  startsWithHyphen y = false -> startsWithHyphen (stripEnd p y) = false.
Proof.
  destruct y as [|c r]; [reflexivity|].
  simpl. destruct (p c && forallb p r); [reflexivity | trivial].
Qed.

Lemma stripEnd_slugChars p y :
  forallb slugChar y = true -> forallb slugChar (stripEnd p y) = true.
Proof.
  induction y as [|c r IH]; [reflexivity|].
  simpl. intros H. apply andb_prop in H as [Hc Hr].
  destruct (p c && forallb p r); [reflexivity|].
  simpl. now rewrite Hc, IH.
Qed.

Lemma stripEnd_noDoubleHyphen p y :
  noDoubleHyphen y = true -> noDoubleHyphen (stripEnd p y) = true.
Proof.
  induction y as [|c r IH]; [reflexivity|].
  simpl. intros H. apply andb_prop in H as [Hc Hr].
  destruct (p c && forallb p r); [reflexivity|].
  simpl. rewrite (IH Hr), andb_true_r.
  destruct (isHyphen c); [|reflexivity].
  simpl in *. apply negb_true_iff in Hc.
  now rewrite (stripEnd_head p r Hc).
Qed.

Lemma stripEnd_idempotent p y : stripEnd p (stripEnd p y) = stripEnd p y.
Proof.
  induction y as [|c r IH]; [reflexivity|].
  rewrite stripEnd_cons.
  destruct (stripEnd p r) as [|d z] eqn:E.
  - destruct (p c) eqn:Pc; [reflexivity|]. simpl. now rewrite Pc.
  - rewrite stripEnd_cons, IH. reflexivity.
Qed.

Lemma toLowerCase_slugChars y :
  forallb slugChar y = true -> toLowerCase y = y.
Proof.
  induction y as [|c r IH]; [reflexivity|].
  simpl. intros H. apply andb_prop in H as [Hc Hr].
  now rewrite (lower_slugChar c Hc), (IH Hr).
Qed.

Lemma collapse_fixes_slugs y :
  forallb slugChar y = true -> noDoubleHyphen y = true ->
  collapse false y = y
  /\ (startsWithHyphen y = false -> collapse true y = y).
Proof.
  induction y as [|c r IH]; [split; reflexivity|].
  simpl. intros H N.
  apply andb_prop in H as [Hc Hr]. apply andb_prop in N as [Nc Nr].
  destruct (IH Hr Nr) as [IH0 IH1].
  destruct (isLowerAlnum c) eqn:A.
  - split; intros; now rewrite IH0.
  - unfold slugChar in Hc. rewrite A in Hc. simpl in Hc.
    rewrite Hc in *. simpl in Nc. apply negb_true_iff in Nc.
    split; [|discriminate].
    now rewrite (IH1 Nc), (hyphen_is c Hc).
Qed.

Lemma slugifyChars_idempotent l : slugifyChars (slugifyChars l) = slugifyChars l.
Proof.
  rewrite (slugifyChars_collapse (slugifyChars l)).
  rewrite (slugifyChars_collapse l).
  set (y := collapse true (toLowerCase l)).
  assert (forallb slugChar (stripEnd isHyphen y) = true) as Hs
    by apply stripEnd_slugChars, collapse_slugChars.
  assert (noDoubleHyphen (stripEnd isHyphen y) = true) as Hn
    by apply stripEnd_noDoubleHyphen, collapse_noDoubleHyphen.
  assert (startsWithHyphen (stripEnd isHyphen y) = false) as Hh
    by apply stripEnd_head, collapse_true_head.
  rewrite (toLowerCase_slugChars _ Hs).
  rewrite (proj2 (collapse_fixes_slugs _ Hs Hn) Hh).
  apply stripEnd_idempotent.
Qed.

(** A slug is empty or of the canonical form that the route accepts. *)
Lemma slugRest_shape l :
  forallb slugChar l = true -> noDoubleHyphen l = true ->
  stripEnd isHyphen l = l ->
  (startsWithHyphen l = false -> l <> [] -> Route.slugRest false l = true)
  /\ Route.slugRest true l = true.
Proof.
  induction l as [|c r IH]; [split; [congruence | reflexivity]|].
  intros Hs Hn He. simpl in Hs, Hn.
  apply andb_prop in Hs as [Hc Hs]. apply andb_prop in Hn as [Nc Nn].
  rewrite stripEnd_cons in He.
  assert (stripEnd isHyphen r = r /\ (isHyphen c = true -> r <> [])) as [Er Hr].
  { destruct (stripEnd isHyphen r) as [|d z] eqn:E.
    - destruct (isHyphen c); [discriminate|].
      injection He as <-. split; [reflexivity | discriminate].
    - injection He as <-. split; [reflexivity | discriminate]. }
  destruct (IH Hs Nn Er) as [IH0 IH1]. simpl.
  destruct (isLowerAlnum c) eqn:A; [split; auto|].
  unfold slugChar in Hc. rewrite A in Hc. simpl in Hc. rewrite Hc in *.
  simpl in Nc. apply negb_true_iff in Nc. simpl.
  split; [discriminate | auto].
Qed.

Lemma slugifyChars_canonical l :
  slugifyChars l = [] \/ Route.slugRest false (slugifyChars l) = true.
Proof.
  rewrite slugifyChars_collapse.
  set (y := collapse true (toLowerCase l)).
  destruct (stripEnd isHyphen y) as [|c z] eqn:E; [now left|right].
  rewrite <- E.
  apply slugRest_shape.
  - apply stripEnd_slugChars, collapse_slugChars.
  - apply stripEnd_noDoubleHyphen, collapse_noDoubleHyphen.
  - apply stripEnd_idempotent.
  - apply stripEnd_head, collapse_true_head.
  - rewrite E. discriminate.
Qed.

(** X1.  Every slug that [slugify] produces is either empty or accepted
    by the route's [SLUG_REGEX]. *)
Lemma slugify_canonical_or_empty T :
  slugify T = "" \/ Route.SLUG_REGEX_test (slugify T) = true.
Proof.
  unfold Route.SLUG_REGEX_test, slugify.
  rewrite list_ascii_of_string_of_list_ascii.
  destruct (slugifyChars_canonical (list_ascii_of_string T)) as [E|E];
    [left; now rewrite E | now right].
Qed.

(** C7.  [slugify] is idempotent. *)
Theorem slugify_idempotent : forall T, slugify (slugify T) = slugify T.
Proof.
  intros T. unfold slugify.
  now rewrite list_ascii_of_string_of_list_ascii, slugifyChars_idempotent.
Qed.

(** ** [trim] *)

Lemma trim_padding w1 t w2 :
  forallb isSpace w1 = true -> forallb isSpace w2 = true ->
  trim (w1 ++ t ++ w2) = trim t.
Proof.
  intros H1 H2. unfold trim, trimStart, trimEnd, dropWhileEnd.
  rewrite dropWhile_app, H1, dropWhile_app.
  destruct (forallb isSpace t) eqn:T.
  - now rewrite (dropWhile_all _ _ H2), (dropWhile_all _ _ T).
  - rewrite rev_app_distr, dropWhile_app, forallb_rev, H2. reflexivity.
Qed.

Lemma list_ascii_of_string_app (a b : string) :
  list_ascii_of_string (a ++ b)%string
  = list_ascii_of_string a ++ list_ascii_of_string b.
Proof. induction a as [|c a IH]; simpl; [reflexivity | now rewrite IH]. Qed.

(** ** [normalizeTime] *)

Lemma digit_cases c :
  isDigit c = true ->
  In c ["0"; "1"; "2"; "3"; "4"; "5"; "6"; "7"; "8"; "9"]%char.
Proof.
  destruct c as [[] [] [] [] [] [] [] []]; try discriminate; intros _; simpl; tauto.
Qed.

Lemma digitsValue_decimal g n :
  forallb isDigit g = true ->
  digitsValue (Z.of_nat n) g
  = Some (Z.of_nat (fold_left (fun acc c => 10 * acc + (code c - 48)) g n)).
Proof.
  revert n. induction g as [|c g IH]; intros n; [reflexivity|].
  cbn [digitsValue fold_left forallb].
  intros H. apply andb_prop in H as [Hc Hg]. rewrite Hc.
  replace (10 * Z.of_nat n + Z.of_nat (code c - 48))%Z
    with (Z.of_nat (10 * n + (code c - 48))) by lia.
  now apply IH.
Qed.

Lemma Number_decimal g :
  forallb isDigit g = true -> g <> [] ->
  Number g = Some (Z.of_nat (Spec.decimal g)).
Proof.
  intros H Hne. destruct g as [|c g]; [congruence|].
  unfold Number. now apply (digitsValue_decimal (c :: g) 0).
Qed.

Lemma padStart_digits g :
  forallb isDigit g = true ->
  List.length g = 1 \/ List.length g = 2 ->
  padStart 2 "0" (toString (Z.of_nat (Spec.decimal g))) = padStart 2 "0" g.
Proof.
  intros H [L|L].
  - destruct g as [|a [|]]; try discriminate.
    simpl in H. rewrite andb_true_r in H.
    pose proof (digit_cases a H) as Ha. simpl in Ha.
    repeat (destruct Ha as [<-|Ha]; [reflexivity|]). contradiction.
  - destruct g as [|a [|b [|]]]; try discriminate.
    simpl in H. rewrite andb_true_r in H. apply andb_prop in H as [Ha Hb].
    apply digit_cases in Ha, Hb. simpl in Ha, Hb.
    repeat (destruct Ha as [<-|Ha]; [
      repeat (destruct Hb as [<-|Hb]; [reflexivity|]); contradiction|]).
    contradiction.
Qed.

Ltac char_case x :=
  destruct (isDigit x) eqn:?;
  [ rewrite ?(digit_not_colon x) by assumption
  | destruct (isColon x) eqn:? ].

Ltac crush_bools :=
  simpl;
  repeat match goal with
         | H : ?f ?x = _ |- context [?f ?x] => rewrite H; simpl
         end;
  repeat (rewrite ?andb_false_r, ?andb_true_r; simpl); try reflexivity.

Lemma splitAtColon_cons c r :
  Spec.splitAtColon (c :: r) =
  if isColon c then Some ([], r)
  else match Spec.splitAtColon r with
       | Some (h, m) => Some (c :: h, m)
       | None => None
       end.
Proof. reflexivity. Qed.

(** The regular expression, read through the first colon of the string. *)
Lemma execTime_split t :
  execTime t =
  match Spec.splitAtColon t with
  | Some (h, m) =>
      if forallb isDigit h && (1 <=? List.length h) && (List.length h <=? 2)
         && forallb isDigit m && (List.length m =? 2)
      then Some (h, m) else None
  | None => None
  end.
Proof.
  destruct t as [|a [|b [|c [|d [|e [|f r]]]]]];
    [ cbn [execTime Spec.splitAtColon] .. | ].
  - reflexivity.
  - char_case a; crush_bools.
  - char_case a; char_case b; crush_bools.
  - char_case a; char_case b; char_case c; crush_bools.
  - char_case a; char_case b; char_case c; char_case d; crush_bools.
  - char_case a; char_case b; char_case c; char_case d; char_case e; crush_bools.
  - change (execTime (a :: b :: c :: d :: e :: f :: r))
      with (@None (chars * chars)).
    rewrite (splitAtColon_cons a), (splitAtColon_cons b), (splitAtColon_cons c).
    destruct (Spec.splitAtColon (d :: e :: f :: r)) as [[h m]|];
      char_case a; char_case b; char_case c; crush_bools.
Qed.

Lemma range_check (v bound : nat) :
  ((Z.of_nat v <? 0) || (Z.of_nat v >? Z.of_nat bound))%Z = negb (v <=? bound).
Proof.
  rewrite Z.gtb_ltb.
  destruct (Z.ltb_spec (Z.of_nat v) 0); [lia|].
  destruct (Z.ltb_spec (Z.of_nat bound) (Z.of_nat v));
    destruct (Nat.leb_spec v bound); simpl; try reflexivity; lia.
Qed.

Lemma normalizeTimeChars_spec raw :
  normalizeTimeChars raw =
  if Spec.matchesTime (trim raw) then Some (Spec.zeroPadded (trim raw)) else None.
Proof.
  unfold normalizeTimeChars, Spec.matchesTime, Spec.zeroPadded.
  rewrite execTime_split.
  destruct (Spec.splitAtColon (trim raw)) as [[h m]|]; [|reflexivity].
  destruct (forallb isDigit h && (1 <=? List.length h) && (List.length h <=? 2)
            && forallb isDigit m && (List.length m =? 2)) eqn:Shape;
    [|reflexivity].
  apply andb_prop in Shape as [Shape Lm]. apply andb_prop in Shape as [Shape Dm].
  apply andb_prop in Shape as [Shape Lh2]. apply andb_prop in Shape as [Dh Lh1].
  apply Nat.leb_le in Lh1, Lh2. apply Nat.eqb_eq in Lm.
  rewrite (Number_decimal h Dh) by (destruct h; [simpl in Lh1; lia | discriminate]).
  rewrite (Number_decimal m Dm) by (destruct m; discriminate).
  change 23%Z with (Z.of_nat 23). change 59%Z with (Z.of_nat 59).
  rewrite <- orb_assoc, (range_check (Spec.decimal m) 59).
  rewrite (range_check (Spec.decimal h) 23).
  rewrite (padStart_digits h Dh) by lia.
  rewrite (padStart_digits m Dm) by lia.
  replace (padStart 2 "0" m) with m
    by (unfold padStart; rewrite Lm; reflexivity).
  simpl.
  destruct (Spec.decimal h <=? 23); [|reflexivity].
  destruct (Spec.decimal m <=? 59); reflexivity.
Qed.

(** C6, as the code has it.  [normalizeTime] returns a result exactly for
    the inputs that, once leading and trailing whitespace is stripped, are
    a 1-to-2-digit hour, a colon and an exactly-2-digit minute with the
    hour in [0,23] and the minute in [0,59]; the result is then the
    zero-padded HH:MM form of the stripped input, and every other input is
    rejected.  In particular "9:5" and "24:00" are rejected, "09:05" and
    "23:59" are returned unchanged. *)
Theorem normalizeTime_trimmed_pattern :
  (forall raw,
     normalizeTime raw =
     let trimmed := trim (list_ascii_of_string raw) in
     if Spec.matchesTime trimmed
     then Some (string_of_list_ascii (Spec.zeroPadded trimmed))
     else None)
  /\ normalizeTime "9:5" = None
  /\ normalizeTime "09:05" = Some "09:05"
  /\ normalizeTime "23:59" = Some "23:59"
  /\ normalizeTime "24:00" = None.
Proof.
  split; [|repeat split; reflexivity].
  intros raw. unfold normalizeTime. rewrite normalizeTimeChars_spec.
  cbv zeta. destruct (Spec.matchesTime _); reflexivity.
Qed.

(** C6, as the claim words it, fails on a padded input: " 09:05 " is not of
    the form hour, colon, minute, and yet it is accepted. *)
Lemma normalizeTime_accepts_padded_input :
  Spec.matchesTime (list_ascii_of_string " 09:05 ") = false
  /\ normalizeTime " 09:05 " = Some "09:05".
Proof. split; reflexivity. Qed.

(** C10.  [normalizeTime] strips leading and trailing whitespace before it
    matches: padding the input with whitespace on either side does not
    change the result, so " 09:05 " gives "09:05" although the bare
    pattern rejects it. *)
Theorem normalizeTime_ignores_padding :
  forall t w1 w2,
    forallb isSpace (list_ascii_of_string w1) = true ->
    forallb isSpace (list_ascii_of_string w2) = true ->
    normalizeTime (w1 ++ t ++ w2)%string = normalizeTime t.
Proof.
  intros t w1 w2 H1 H2. unfold normalizeTime, normalizeTimeChars.
  rewrite !list_ascii_of_string_app.
  now rewrite (trim_padding _ _ _ H1 H2).
Qed.

Lemma normalizeTime_ignores_padding_witness :
  normalizeTime " 09:05 " = Some "09:05"
  /\ Spec.matchesTime (list_ascii_of_string " 09:05 ") = false
  /\ execTime (list_ascii_of_string " 09:05 ") = None.
Proof.
  split; [|split; reflexivity].
  change " 09:05 " with (" " ++ "09:05" ++ " ")%string.
  rewrite (normalizeTime_ignores_padding "09:05" " " " "); reflexivity.
Defined.

(** ** The Event pre-save hook *)

Lemma bind_Ok {E A B} (r : Result E A) (k : A -> Result E B) b :
  bind r k = Ok b -> exists a, r = Ok a /\ k a = Ok b.
Proof. destruct r as [a|e]; simpl; [eauto | discriminate]. Qed.

(** C8.  When the Event pre-save hook succeeds, [slug] is [slugify(title)]
    if the title was modified or the slug is unset and is unchanged
    otherwise; [date] is the re-parsed date if the date was modified and is
    unchanged otherwise; [time] is the normalized time if the time was
    modified and is unchanged otherwise; every other field is unchanged. *)
Theorem preSave_renormalizes_affected_fields_only :
  forall parseDate isModified (d d' : EventDocument),
    preSave parseDate isModified d = Ok d' ->
    slug d' = (if isModified "title" || negb (truthy (slug d))
               then Some (slugify (title d)) else slug d)
    /\ (if isModified "date"
        then parseDate (date d) = Some (date d')
        else date d' = date d)
    /\ (if isModified "time"
        then normalizeTime (time d) = Some (time d')
        else time d' = time d)
    /\ _id d' = _id d /\ title d' = title d
    /\ description d' = description d /\ overview d' = overview d
    /\ image d' = image d /\ venue d' = venue d /\ location d' = location d
    /\ mode d' = mode d /\ audience d' = audience d /\ agenda d' = agenda d
    /\ organizer d' = organizer d /\ tags d' = tags d
    /\ createdAt d' = createdAt d /\ updatedAt d' = updatedAt d.
Proof.
  intros parseDate isModified d d' H. unfold preSave in H. cbv zeta in H.
  apply bind_Ok in H as (d1 & Hdate & Htime).
  set (d0 := if isModified "title" || negb (truthy (slug d))
             then setSlug (slugify (title d)) d else d) in *.
  assert (slug d0 = (if isModified "title" || negb (truthy (slug d))
                     then Some (slugify (title d)) else slug d)
          /\ date d0 = date d /\ time d0 = time d
          /\ _id d0 = _id d /\ title d0 = title d
          /\ description d0 = description d /\ overview d0 = overview d
          /\ image d0 = image d /\ venue d0 = venue d /\ location d0 = location d
          /\ mode d0 = mode d /\ audience d0 = audience d /\ agenda d0 = agenda d
          /\ organizer d0 = organizer d /\ tags d0 = tags d
          /\ createdAt d0 = createdAt d /\ updatedAt d0 = updatedAt d) as F0.
  { unfold d0. destruct (isModified "title" || negb (truthy (slug d)));
      repeat split; reflexivity. }
  clearbody d0.
  destruct F0 as (Fs & Fd & Ft & F0).
  rewrite <- Fs, <- Fd, <- Ft.
  repeat match type of F0 with
         | _ /\ _ => let E := fresh "E" in destruct F0 as [E F0]; rewrite <- E
         end.
  rewrite <- F0.
  destruct (isModified "date").
  - destruct (parseDate (date d0)) as [iso|] eqn:P; [|discriminate].
    injection Hdate as <-.
    destruct (isModified "time").
    + destruct (normalizeTime (time (setDate iso d0))) as [t|] eqn:N; [|discriminate].
      simpl in N. destruct (truthy (Some t)); [|discriminate].
      injection Htime as <-. simpl. rewrite N. repeat split; reflexivity.
    + injection Htime as <-. simpl. repeat split; reflexivity.
  - injection Hdate as <-.
    destruct (isModified "time").
    + destruct (normalizeTime (time d0)) as [t|] eqn:N; [|discriminate].
      destruct (truthy (Some t)); [|discriminate].
      injection Htime as <-. simpl. repeat split; reflexivity.
    + injection Htime as <-. repeat split; reflexivity.
Qed.

Lemma preSave_renormalizes_affected_fields_only_witness :
  preSave (fun _ => None) titleOnly renamedEvent
    = Ok (setSlug "cloud-next-2027" renamedEvent)
  /\ slug (setSlug "cloud-next-2027" renamedEvent) = Some (slugify "Cloud Next 2027")
  /\ date (setSlug "cloud-next-2027" renamedEvent) = date renamedEvent
  /\ time (setSlug "cloud-next-2027" renamedEvent) = time renamedEvent.
Proof.
  assert (preSave (fun _ => None) titleOnly renamedEvent
          = Ok (setSlug "cloud-next-2027" renamedEvent)) as Run by reflexivity.
  split; [exact Run|].
  destruct (preSave_renormalizes_affected_fields_only _ _ _ _ Run)
    as (Hs & Hd & Ht & _).
  repeat split; assumption.
Defined.

(** ** Saving an Event whose slug is empty *)

Lemma check_false_head ok path rest :
  ok = false -> check ok path ++ rest = path :: rest.
Proof. now intros ->. Qed.

Lemma preSave_new_slug parseDate (d d' : EventDocument) :
  preSave parseDate (fun _ => true) d = Ok d' -> slug d' = Some (slugify (title d)).
Proof.
  unfold preSave. simpl.
  destruct (parseDate (date d)) as [iso|]; [simpl|discriminate].
  destruct (normalizeTime (time d)) as [t|]; [|discriminate].
  destruct (truthy (Some t)); [|discriminate].
  now intros [= <-].
Qed.

(** C3, as the code has it.  For an Event whose title slugifies to the
    empty string: a blank title fails schema validation at [title]; for any
    other such title no check stands between the derivation and the write,
    the hook sets [slug] to the empty string and the document is inserted
    with it, unless the unique index already holds an empty slug. *)
Theorem empty_slug_passes_validation :
  forall parseDate coll (doc : EventDocument),
    slugify (title doc) = "" ->
    (nonEmptyStringValidator (title doc) = false ->
     exists paths,
       saveNew parseDate coll doc = Err (ValidationError ("title" :: paths)))
    /\ (forall doc',
          validate doc = [] ->
          preSave parseDate (fun _ => true) doc = Ok doc' ->
          slug doc' = Some ""
          /\ saveNew parseDate coll doc =
             if existsb (fun e => sameSlug (slug e) (Some "")) coll
             then Err (DuplicateKey "slug")
             else Ok (coll ++ [doc'])).
Proof.
  intros parseDate coll doc Empty. split.
  - intros Blank. unfold saveNew, validate.
    rewrite check_false_head
      by (unfold stringPathOk; rewrite Blank; apply andb_false_r).
    eexists. reflexivity.
  - intros doc' Valid Hook.
    pose proof (preSave_new_slug _ _ _ Hook) as Hs.
    rewrite Empty in Hs.
    split; [exact Hs|].
    unfold saveNew. rewrite Valid, Hook. simpl. now rewrite Hs.
Qed.

Lemma empty_slug_passes_validation_witness :
  slugify (title punctuationEvent) = ""
  /\ saveNew (fun s => Some (s ++ "T00:00:00.000Z")%string) [] punctuationEvent
     = Ok [setTime "09:30"
             (setDate "2025-04-10T00:00:00.000Z" (setSlug "" punctuationEvent))].
Proof.
  split; [reflexivity|].
  destruct (empty_slug_passes_validation
              (fun s => Some (s ++ "T00:00:00.000Z")%string) [] punctuationEvent
              eq_refl) as [_ Stored].
  destruct (Stored _ eq_refl eq_refl) as [_ Run].
  exact Run.
Defined.

(** C3, as the claim words it, fails: an event titled "!!!" with otherwise
    valid fields is saved, and its stored slug is the empty string,
    whatever ISO string the date parses to. *)
Lemma empty_slug_is_stored :
  slugify (title punctuationEvent) = ""
  /\ forall parseDate iso,
       parseDate "2025-04-10" = Some iso ->
       saveNew parseDate [] punctuationEvent
       = Ok [setTime "09:30" (setDate iso (setSlug "" punctuationEvent))]
       /\ slug (setTime "09:30" (setDate iso (setSlug "" punctuationEvent)))
          = Some "".
Proof.
  split; [reflexivity|].
  intros parseDate iso P. split; [|reflexivity].
  unfold saveNew. change (validate punctuationEvent) with (@nil string).
  unfold preSave. simpl. rewrite P. reflexivity.
Qed.

(** ** The Booking pre-save hook *)

Lemma Event_exists_false db id :
  (forall e, In e (BookingModel.events db) -> EventModel._id e <> id) ->
  BookingModel.Event_exists db id = false.
Proof.
  intros H. unfold BookingModel.Event_exists.
  destruct (existsb _ _) eqn:E; [|reflexivity].
  apply existsb_exists in E as (e & He & Hid).
  apply N.eqb_eq in Hid. now apply H in He.
Qed.

(** C4.  When no stored Event has the booking's [eventId], the hook throws
    the missing-event error, so the save rejects (with that error once
    validation has let the document through to the hook) and the
    database, whatever bookings it holds, is left as it was. *)
Theorem booking_without_event_is_rejected :
  forall (db : BookingModel.Db) (doc : BookingModel.BookingDocument),
    (forall e, In e (BookingModel.events db) ->
               EventModel._id e <> BookingModel.eventId doc) ->
    BookingModel.preSave db doc
      = Err (HookError "Cannot create booking: referenced event does not exist.")
    /\ fst (BookingModel.save db doc) = db
    /\ (exists e, snd (BookingModel.save db doc) = Err e)
    /\ (BookingModel.validate doc = [] ->
        snd (BookingModel.save db doc)
        = Err (HookError "Cannot create booking: referenced event does not exist.")).
Proof.
  intros db doc Missing.
  assert (BookingModel.preSave db doc
          = Err (HookError "Cannot create booking: referenced event does not exist."))
    as Hook.
  { unfold BookingModel.preSave.
    now rewrite (Event_exists_false _ _ Missing). }
  split; [exact Hook|].
  unfold BookingModel.save. rewrite Hook.
  destruct (BookingModel.validate doc) as [|p ps]; simpl;
    repeat split; eauto; discriminate.
Qed.

Lemma booking_without_event_is_rejected_witness :
  BookingModel.save sampleDb danglingBooking
  = (sampleDb,
     Err (HookError "Cannot create booking: referenced event does not exist.")).
Proof.
  assert (forall e, In e (BookingModel.events sampleDb) ->
                    EventModel._id e <> BookingModel.eventId danglingBooking)
    as Missing.
  { intros e [<-|[]]. discriminate. }
  destruct (booking_without_event_is_rejected sampleDb danglingBooking Missing)
    as (_ & Same & _ & Rejected).
  specialize (Rejected eq_refl).
  rewrite (surjective_pairing (BookingModel.save sampleDb danglingBooking)).
  now rewrite Same, Rejected.
Defined.

(** ** The event-by-slug handler *)

Lemma slugRest_segment seg rest b :
  forallb isLowerAlnum seg = true ->
  Route.slugRest b (seg ++ rest)
  = Route.slugRest (b || negb (Nat.eqb (List.length seg) 0)) rest.
Proof.
  revert b. induction seg as [|c seg IH]; intros b H.
  - simpl. now rewrite orb_false_r.
  - simpl in *. apply andb_prop in H as [Hc Hs].
    rewrite Hc, (IH true Hs). simpl. now rewrite orb_true_r.
Qed.

Lemma canonicalSlug_cons c l :
  isLowerAlnum c = true -> Spec.canonicalSlug l -> Spec.canonicalSlug (c :: l).
Proof.
  intros Hc [seg [_ Hs] | seg rest [_ Hs] Hr].
  - apply Spec.slug_one. split; [discriminate | simpl; now rewrite Hc].
  - apply (Spec.slug_more (c :: seg) rest); [|exact Hr].
    split; [discriminate | simpl; now rewrite Hc].
Qed.

Lemma slugRest_canonical l :
  (Route.slugRest false l = true -> Spec.canonicalSlug l)
  /\ (Route.slugRest true l = true ->
      forall c, isLowerAlnum c = true -> Spec.canonicalSlug (c :: l)).
Proof.
  induction l as [|d r [IH0 IH1]]; simpl.
  - split; [discriminate|].
    intros _ c Hc. apply Spec.slug_one. split; [discriminate | simpl; now rewrite Hc].
  - destruct (isLowerAlnum d) eqn:A.
    + split; intros H; [now apply IH1|].
      intros c Hc. apply canonicalSlug_cons; [exact Hc | now apply IH1].
    + rewrite andb_false_r, andb_true_r. split; [discriminate|].
      destruct (isHyphen d) eqn:Hy; [|discriminate].
      intros H c Hc. rewrite (hyphen_is d Hy).
      apply (Spec.slug_more [c] r); [|now apply IH0].
      split; [discriminate | simpl; now rewrite Hc].
Qed.

(** The automaton accepts exactly the strings of the canonical pattern. *)
Lemma SLUG_REGEX_canonical s :
  Route.SLUG_REGEX_test s = true <-> Spec.canonicalSlug (list_ascii_of_string s).
Proof.
  unfold Route.SLUG_REGEX_test. split; [apply slugRest_canonical|].
  induction 1 as [seg [Hne Hs] | seg rest [Hne Hs] Hr IH].
  - rewrite <- (app_nil_r seg), (slugRest_segment seg [] false Hs).
    destruct seg; [congruence | reflexivity].
  - rewrite (slugRest_segment seg _ false Hs).
    destruct seg; [congruence|]. simpl. exact IH.
Qed.

(** C9.  A request whose slug (from the route parameters or, failing that,
    from the query string) is missing or does not match the canonical
    pattern is answered with status 400 and no call to the database is
    made.  For a slug that matches, once the connection is up and the
    lookup finds no event, the [try] block completes normally with the 404
    response: nothing is thrown and the [catch] is not involved. *)
Theorem GET_rejects_malformed_and_reports_missing :
  forall (be : Route.Backend) (req : Route.Request),
    ((forall s, Route.getSlug req = Some s ->
                ~ Spec.canonicalSlug (list_ascii_of_string s)) ->
     Route.status (fst (Route.GET be req)) = 400
     /\ snd (Route.GET be req) = [])
    /\ (forall s h,
          Route.getSlug req = Some s ->
          Spec.canonicalSlug (list_ascii_of_string s) ->
          Route.connectToDatabase be = Ok h ->
          Route.findOne be s = Ok None ->
          Route.tryBody be req []
          = (Ok (Route.jsonError "Event not found." 404),
             [Route.CallConnect; Route.CallFindOne s])
          /\ Route.GET be req
             = (Route.jsonError "Event not found." 404,
                [Route.CallConnect; Route.CallFindOne s])).
Proof.
  intros be req. split.
  - intros Bad. unfold Route.GET, Route.tryBody.
    destruct (Route.getSlug req) as [s|]; [|split; reflexivity].
    destruct (s =? "")%string; [split; reflexivity|].
    destruct (Route.SLUG_REGEX_test s) eqn:R; [|split; reflexivity].
    apply SLUG_REGEX_canonical in R. now apply Bad in R.
  - intros s h Hs Good Up Miss.
    apply SLUG_REGEX_canonical in Good.
    assert ((s =? "")%string = false) as Hne.
    { destruct s; [discriminate | reflexivity]. }
    assert (Route.tryBody be req []
            = (Ok (Route.jsonError "Event not found." 404),
               [Route.CallConnect; Route.CallFindOne s])) as Body.
    { unfold Route.tryBody. rewrite Hs, Hne, Good. simpl.
      unfold Route.andThen, Route.await. rewrite Up. simpl. rewrite Miss.
      reflexivity. }
    split; [exact Body|]. unfold Route.GET. now rewrite Body.
Qed.

Lemma GET_rejects_malformed_and_reports_missing_witness :
  (Route.status (fst (Route.GET emptyBackend malformedRequest)) = 400
   /\ snd (Route.GET emptyBackend malformedRequest) = [])
  /\ Route.GET emptyBackend queryRequest
     = (Route.jsonError "Event not found." 404,
        [Route.CallConnect; Route.CallFindOne "my-event-1"]).
Proof.
  split.
  - destruct (GET_rejects_malformed_and_reports_missing emptyBackend malformedRequest)
      as [Bad _].
    assert (forall s, Route.getSlug malformedRequest = Some s ->
                      ~ Spec.canonicalSlug (list_ascii_of_string s)) as H.
    { intros s E. injection E as <-. intros C.
      apply SLUG_REGEX_canonical in C. discriminate. }
    exact (Bad H).
  - destruct (GET_rejects_malformed_and_reports_missing emptyBackend queryRequest)
      as [_ Miss].
    apply (Miss "my-event-1" 0 eq_refl); try reflexivity.
    apply SLUG_REGEX_canonical. reflexivity.
Defined.

(** ** The connection cache *)

Import Mongodb.

Lemma Forall_update {A} (P : A -> Prop) i x l :
  Forall P l -> P x -> Forall P (update i x l).
Proof.
  intros H Hx. revert i. induction H as [|y l Hy Hl IH]; intros [|i]; simpl;
    constructor; auto.
Qed.

Lemma heap_singleton (hp : list PromiseState) q v :
  nth_error hp q = Some v -> List.length hp <= 1 -> q = 0 /\ hp = [v].
Proof.
  destruct hp as [|p [|]]; simpl; intros H L; try lia.
  - destruct q; discriminate.
  - destruct q as [|q]; simpl in H; [|destruct q; discriminate].
    injection H as ->. auto.
Qed.

Lemma cacheInv_init n : cacheInv (init n).
Proof.
  split; [reflexivity|]. simpl.
  induction n; simpl; constructor; auto.
Qed.

Lemma cacheInv_step ev s s' : cacheInv s -> step ev s = Some s' -> cacheInv s'.
Proof.
  destruct s as [[cn pr] pub hp ks]. unfold cacheInv. simpl.
  intros Inv Step. destruct ev as [i | q r | i]; simpl in Step.
  - (* Call *)
    destruct (nth_error ks i) as [[| | |]|] eqn:Ki; try discriminate.
    destruct hp as [|p [|]]; [| |contradiction].
    + destruct Inv as [E All]. injection E as -> ->.
      simpl in Step. injection Step as <-. simpl.
      repeat split; [discriminate|].
      apply Forall_update; [|reflexivity].
      eapply Forall_impl; [|exact All]. now intros k ->.
    + destruct Inv as (Hp & Hc & All). simpl in Hp. subst pr.
      unfold enter in Step. simpl in Step.
      destruct cn as [h|]; injection Step as <-; simpl;
        repeat split; auto; apply Forall_update; auto.
      * simpl. now apply Hc.
      * reflexivity.
  - (* Settle *)
    destruct (nth_error hp q) as [[| |]|] eqn:Hq; try discriminate.
    injection Step as <-. simpl.
    destruct hp as [|p [|]]; [destruct q; discriminate| |contradiction].
    destruct (heap_singleton [p] q Pending Hq) as [-> E]; [simpl; lia|].
    injection E as ->. simpl.
    destruct Inv as (Hp & Hc & All).
    repeat split; [exact Hp| |].
    + intros h Hh. apply Hc in Hh. discriminate.
    + eapply Forall_impl; [|exact All].
      intros [| | |] Hk; simpl in *; auto; discriminate.
  - (* Resume *)
    destruct (nth_error ks i) as [[|q| |]|] eqn:Ki; try discriminate.
    destruct (nth_error hp q) as [outcome|] eqn:Hq; try discriminate.
    destruct hp as [|p [|]]; [destruct q; discriminate| |contradiction].
    destruct (heap_singleton [p] q outcome Hq) as [-> E]; [simpl; lia|].
    injection E as ->.
    destruct Inv as (Hp & Hc & All).
    destruct outcome as [|h|e]; simpl in Step; try discriminate;
      injection Step as <-; simpl.
    + repeat split; [exact Hp| |].
      * now intros h' [= <-].
      * apply Forall_update; [exact All | reflexivity].
    + repeat split; [exact Hp|exact Hc|].
      apply Forall_update; [exact All | reflexivity].
Qed.

Lemma cacheInv_run tr : forall s s', cacheInv s -> run tr s = Some s' -> cacheInv s'.
Proof.
  induction tr as [|ev tr IH]; simpl; intros s s' Inv Run.
  - now injection Run as <-.
  - destruct (step ev s) as [s1|] eqn:Step; [|discriminate].
    eapply IH; [|exact Run]. eapply cacheInv_step; eauto.
Qed.

Lemma Forall_nth_error {A} (P : A -> Prop) l i x :
  Forall P l -> nth_error l i = Some x -> P x.
Proof.
  intros H Hx. rewrite Forall_forall in H. apply H.
  eapply nth_error_In; eauto.
Qed.

Lemma unfinished_caller ks :
  forallb isDone ks = false ->
  exists i k, nth_error ks i = Some k /\ isDone k = false.
Proof.
  induction ks as [|k ks IH]; simpl; [discriminate|].
  destruct (isDone k) eqn:D; simpl.
  - intros H. destruct (IH H) as (i & k' & Hi & Hk). now exists (S i), k'.
  - intros _. now exists 0, k.
Qed.

(** As long as some invocation has not completed, the event loop has
    something to run. *)
Lemma cacheInv_progress s :
  cacheInv s -> finished s = false -> exists ev s', step ev s = Some s'.
Proof.
  unfold finished. intros Inv Open.
  destruct (unfinished_caller _ Open) as (i & k & Hi & Hk).
  destruct k as [|q| |]; try discriminate.
  - exists (Call i). unfold step. rewrite Hi.
    destruct (enter (cached s) (heap s)) as [[c hp] k']. eauto.
  - unfold cacheInv in Inv.
    destruct (heap s) as [|p [|]] eqn:Hp; [| |contradiction].
    + destruct Inv as [_ All].
      pose proof (Forall_nth_error _ _ _ _ All Hi). discriminate.
    + destruct Inv as (_ & _ & All).
      pose proof (Forall_nth_error _ _ _ _ All Hi) as Hq. simpl in Hq. subst q.
      destruct p as [|h|e].
      * exists (Settle 0 (Ok 0)). unfold step. rewrite Hp. simpl. eauto.
      * exists (Resume i). unfold step. rewrite Hi, Hp. simpl. eauto.
      * exists (Resume i). unfold step. rewrite Hi, Hp. simpl. eauto.
Qed.

Lemma work_update {A} (w : A -> nat) i x y l :
  nth_error l i = Some y ->
  list_sum (map w (update i x l)) + w y = list_sum (map w l) + w x.
Proof.
  revert i. induction l as [|z l IH]; intros [|i] H; simpl in *; try discriminate.
  - injection H as ->. lia.
  - specialize (IH i H). lia.
Qed.

(** Every step of the event loop uses up some of the remaining work. *)
Lemma step_decreases_work ev s s' : step ev s = Some s' -> work s' < work s.
Proof.
  destruct s as [[cn pr] pub hp ks]. unfold work.
  destruct ev as [i | q r | i]; simpl; intros Step.
  - destruct (nth_error ks i) as [[| | |]|] eqn:Ki; try discriminate.
    unfold enter in Step. simpl in Step.
    destruct cn as [h|]; [|destruct pr as [p|]]; injection Step as <-; simpl;
      match goal with
      | |- context [update i ?x ks] =>
          pose proof (work_update callerWork i x _ ks Ki) as W
      end; simpl in W; rewrite ?map_app, ?list_sum_app; simpl; lia.
  - destruct (nth_error hp q) as [[| |]|] eqn:Hq; try discriminate.
    injection Step as <-. simpl.
    match goal with
    | |- context [update q ?x hp] =>
        pose proof (work_update promiseWork q x _ hp Hq) as W
    end.
    destruct r; simpl in W; lia.
  - destruct (nth_error ks i) as [[|q| |]|] eqn:Ki; try discriminate.
    destruct (nth_error hp q) as [[|h|e]|] eqn:Hq; try discriminate;
      simpl in Step; injection Step as <-; simpl;
      match goal with
      | |- context [update i ?x ks] =>
          pose proof (work_update callerWork i x _ ks Ki) as W
      end; simpl in W; lia.
Qed.

Lemma run_bounded tr : forall s s', run tr s = Some s' -> List.length tr + work s' <= work s.
Proof.
  induction tr as [|ev tr IH]; simpl; intros s s' Run.
  - injection Run as <-. lia.
  - destruct (step ev s) as [s1|] eqn:Step; [|discriminate].
    apply step_decreases_work in Step. apply IH in Run. lia.
Qed.

Lemma work_init n : work (init n) = 3 * n.
Proof.
  unfold work, init. simpl. induction n; simpl in *; lia.
Qed.

(** C1.  Two callers invoke [connectToDatabase] on a fresh cache.  However
    their steps interleave and whatever the outcome of the attempt, at
    most one connect attempt exists and at most one is outstanding; once a
    caller has entered there is exactly one; two callers that return hold
    the same handle, and when the attempt is fulfilled with [h] and both
    calls are over, both returned [h].  No schedule blocks before both calls
    are over, and none runs for more than six steps. *)
Theorem concurrent_callers_share_one_attempt :
  forall tr s,
    run tr (init 2) = Some s ->
    attempts s <= 1
    /\ outstanding s <= 1
    /\ ((exists i k, nth_error (callers s) i = Some k /\ k <> NotCalled) ->
        attempts s = 1)
    /\ (forall i j hi hj,
          nth_error (callers s) i = Some (Returned hi) ->
          nth_error (callers s) j = Some (Returned hj) -> hi = hj)
    /\ (forall h, heap s = [Fulfilled h] -> finished s = true ->
                  Forall (fun k => k = Returned h) (callers s))
    /\ (finished s = false -> exists ev s', step ev s = Some s')
    /\ List.length tr <= 6.
Proof.
  intros tr s Run.
  pose proof (cacheInv_run tr _ _ (cacheInv_init 2) Run) as Inv.
  pose proof (run_bounded tr _ _ Run) as Bound. rewrite work_init in Bound.
  repeat split; try lia; try (now apply cacheInv_progress).
  - unfold cacheInv, attempts in *.
    destruct (heap s) as [|p [|]]; simpl; try lia; try contradiction.
  - unfold cacheInv, outstanding in *.
    destruct (heap s) as [|p [|]]; simpl; try lia; try contradiction.
    destruct (isPending p); simpl; lia.
  - intros (i & k & Hi & Hk). unfold cacheInv, attempts in *.
    destruct (heap s) as [|p [|]]; simpl; try lia; try contradiction.
    destruct Inv as [_ All]. now pose proof (Forall_nth_error _ _ _ _ All Hi).
  - intros i j hi hj Hi Hj. unfold cacheInv in Inv.
    destruct (heap s) as [|p [|]]; [| |contradiction].
    + destruct Inv as [_ All]. pose proof (Forall_nth_error _ _ _ _ All Hi).
      discriminate.
    + destruct Inv as (_ & _ & All).
      pose proof (Forall_nth_error _ _ _ _ All Hi) as Pi.
      pose proof (Forall_nth_error _ _ _ _ All Hj) as Pj.
      simpl in Pi, Pj. congruence.
  - intros h Hh Fin. unfold cacheInv in Inv. rewrite Hh in Inv.
    destruct Inv as (_ & _ & All). unfold finished in Fin.
    rewrite forallb_forall in Fin. rewrite Forall_forall in *.
    intros k Hk. specialize (All k Hk). specialize (Fin k Hk).
    destruct k; simpl in *; try discriminate; congruence.
Qed.

Lemma concurrent_callers_share_one_attempt_witness :
  run [Call 0; Call 1; Settle 0 (Ok 5); Resume 1; Resume 0] (init 2)
  = Some (mkState (mkCache (Some 5) (Some 0)) true [Fulfilled 5]
            [Returned 5; Returned 5])
  /\ attempts (mkState (mkCache (Some 5) (Some 0)) true [Fulfilled 5]
                 [Returned 5; Returned 5]) = 1.
Proof.
  assert (run [Call 0; Call 1; Settle 0 (Ok 5); Resume 1; Resume 0] (init 2)
          = Some (mkState (mkCache (Some 5) (Some 0)) true [Fulfilled 5]
                    [Returned 5; Returned 5])) as Run by reflexivity.
  split; [exact Run|].
  destruct (concurrent_callers_share_one_attempt _ _ Run) as (_ & _ & One & _).
  apply One. exists 0, (Returned 5). split; [reflexivity | discriminate].
Defined.

(** C2, on the code.  After the connect attempt has rejected, the slot
    still holds the rejected promise: the next caller finds it, starts no
    attempt and rejects with the same reason, and so does the one after. *)
Theorem rejected_attempt_stays_in_the_slot :
  forall e,
    run [Call 0; Settle 0 (Err e); Resume 0; Call 1; Resume 1; Call 2; Resume 2]
        (init 3)
    = Some (mkState (mkCache None (Some 0)) false [Rejected e]
              [Threw e; Threw e; Threw e]).
Proof. reflexivity. Qed.

(** * Further properties of the code *)

(** ** What [slugify] keeps and what it drops *)

Lemma hyphen_not_alnum c : isHyphen c = true -> isLowerAlnum c = false.
Proof. ascii_cases c. Qed.



Lemma forallb_toLowerCase l :
  forallb (fun c => negb (isLowerAlnum c)) (toLowerCase l) = forallb separator l.
Proof.
  induction l as [|c l IH]; simpl; [reflexivity|]. now rewrite IH.
Qed.

Lemma collapse_only_hyphens b x :
  forallb isHyphen (collapse b x) = forallb (fun c => negb (isLowerAlnum c)) x.
Proof.
  revert b. induction x as [|c r IH]; intros b; [reflexivity|].
  simpl. destruct (isLowerAlnum c) eqn:A; simpl.
  - now rewrite (alnum_not_hyphen c A).
  - destruct b; simpl; apply IH.
Qed.


Lemma collapse_keeps_alnum b x :
  filter isLowerAlnum (collapse b x) = filter isLowerAlnum x.
Proof.
  revert b. induction x as [|c r IH]; intros b; [reflexivity|].
  simpl. destruct (isLowerAlnum c) eqn:A; simpl.
  - now rewrite A, IH.
  - destruct b; simpl; apply IH.
Qed.

Lemma stripEnd_keeps_alnum y :
  filter isLowerAlnum (stripEnd isHyphen y) = filter isLowerAlnum y.
Proof.
  induction y as [|c r IH]; [reflexivity|].
  cbn [stripEnd]. destruct (isHyphen c && forallb isHyphen r) eqn:All.
  - symmetry. apply andb_prop in All as [Hc Hr].
    simpl. rewrite (hyphen_not_alnum c Hc).
    clear IH. induction r as [|d r IHr]; [reflexivity|].
    simpl in *. apply andb_prop in Hr as [Hd Hr].
    rewrite (hyphen_not_alnum d Hd). now apply IHr.
  - simpl. now rewrite IH.
Qed.

(** X3.  The letters and digits of a slug are those of the lower-cased
    title, in the same order: [slugify] only removes or inserts hyphens
    and separators. *)
Theorem slugify_keeps_alphanumerics :
  forall T,
    filter isLowerAlnum (list_ascii_of_string (slugify T))
    = filter isLowerAlnum (toLowerCase (list_ascii_of_string T)).
Proof.
  intros T. unfold slugify.
  rewrite list_ascii_of_string_of_list_ascii, slugifyChars_collapse.
  now rewrite stripEnd_keeps_alnum, collapse_keeps_alnum.
Qed.




Lemma collapse_leading_separators p x :
  forallb (fun c => negb (isLowerAlnum c)) p = true ->
  collapse true (p ++ x) = collapse true x.
Proof.
  induction p as [|c p IH]; [reflexivity|].
  simpl. intros H. apply andb_prop in H as [Hc Hp].
  apply negb_true_iff in Hc. rewrite Hc. now apply IH.
Qed.

Lemma collapse_separators_only b q :
  forallb (fun c => negb (isLowerAlnum c)) q = true ->
  stripEnd isHyphen (collapse b q) = [].
Proof.
  intros H. apply stripEnd_all. now rewrite collapse_only_hyphens.
Qed.

Lemma collapse_trailing_separators x q b :
  forallb (fun c => negb (isLowerAlnum c)) q = true ->
  stripEnd isHyphen (collapse b (x ++ q)) = stripEnd isHyphen (collapse b x).
Proof.
  intros Hq. revert b. induction x as [|c r IH]; intros b.
  - simpl. rewrite (collapse_separators_only b q Hq). now destruct b.
  - simpl. destruct (isLowerAlnum c).
    + rewrite !stripEnd_cons, IH. reflexivity.
    + destruct b; [apply IH|]. rewrite !stripEnd_cons, IH. reflexivity.
Qed.

(** X5.  Characters other than letters and digits around a title do not
    show in its slug: two titles that differ only by such a prefix and
    suffix get the same slug. *)
Theorem slugify_ignores_surrounding_separators :
  forall p T q,
    forallb separator (list_ascii_of_string p) = true ->
    forallb separator (list_ascii_of_string q) = true ->
    slugify (p ++ T ++ q)%string = slugify T.
Proof.
  intros p T q Hp Hq. unfold slugify. f_equal.
  rewrite !slugifyChars_collapse, !list_ascii_of_string_app.
  unfold toLowerCase. rewrite !map_app. fold (toLowerCase (list_ascii_of_string p)).
  rewrite <- forallb_toLowerCase in Hp, Hq.
  rewrite (collapse_leading_separators _ _ Hp).
  now rewrite (collapse_trailing_separators _ _ true Hq).
Qed.

Lemma slugify_ignores_surrounding_separators_witness :
  slugify "  ** Cloud Next 2027!! " = slugify "Cloud Next 2027".
Proof.
  change "  ** Cloud Next 2027!! "
    with ("  ** " ++ "Cloud Next 2027" ++ "!! ")%string.
  apply slugify_ignores_surrounding_separators; reflexivity.
Defined.

Lemma separator_spec c : separator c = negb (inRange 65 90 c || isLowerAlnum c).
Proof. ascii_cases c. Qed.

(** ** The stored form of a time *)

Lemma digit_not_space c : isDigit c = true -> isSpace c = false.
Proof. ascii_cases c. Qed.

Lemma colon_is c : isColon c = true -> c = ":"%char.
Proof. ascii_cases c. Qed.

(** A matching input is normalized to five characters of the stored form. *)
Lemma zeroPadded_canonical t :
  Spec.matchesTime t = true -> canonicalTime (Spec.zeroPadded t) = true.
Proof.
  unfold Spec.matchesTime, Spec.zeroPadded.
  destruct (Spec.splitAtColon t) as [[h m]|]; [|discriminate].
  intros H.
  apply andb_prop in H as [H M59]. apply andb_prop in H as [H H23].
  apply andb_prop in H as [H Lm]. apply andb_prop in H as [H Dm].
  apply andb_prop in H as [H Lh2]. apply andb_prop in H as [Dh Lh1].
  apply Nat.leb_le in Lh1, Lh2. apply Nat.eqb_eq in Lm.
  destruct m as [|m1 [|m2 [|]]]; try discriminate.
  simpl in Dm. rewrite andb_true_r in Dm. apply andb_prop in Dm as [D1 D2].
  destruct h as [|a [|b [|]]]; simpl in Lh1, Lh2; try lia.
  - simpl in Dh. rewrite andb_true_r in Dh.
    cbn [padStart List.length Nat.sub repeat app canonicalTime].
    rewrite Dh, D1, D2, M59. simpl.
    unfold Spec.decimal in *. simpl in *. now rewrite H23.
  - simpl in Dh. rewrite andb_true_r in Dh. apply andb_prop in Dh as [Da Db].
    cbn [padStart List.length Nat.sub repeat app canonicalTime].
    now rewrite Da, Db, D1, D2, H23, M59.
Qed.

(** A time of the stored form matches, and is its own normal form. *)
Lemma canonicalTime_fixed r :
  canonicalTime r = true ->
  trim r = r /\ Spec.matchesTime r = true /\ Spec.zeroPadded r = r.
Proof.
  destruct r as [|h1 [|h2 [|c [|m1 [|m2 [|]]]]]]; try discriminate.
  cbn [canonicalTime]. intros H.
  apply andb_prop in H as [H M59]. apply andb_prop in H as [H H23].
  apply andb_prop in H as [H D4]. apply andb_prop in H as [H D3].
  apply andb_prop in H as [H C]. apply andb_prop in H as [D1 D2].
  pose proof (colon_is c C). subst c.
  split; [|split].
  - unfold trim, trimStart, trimEnd, dropWhileEnd. simpl.
    rewrite (digit_not_space h1 D1). simpl.
    now rewrite (digit_not_space m2 D4).
  - unfold Spec.matchesTime. simpl.
    rewrite (digit_not_colon h1 D1), (digit_not_colon h2 D2). simpl.
    now rewrite D1, D2, D3, D4, H23, M59.
  - unfold Spec.zeroPadded. simpl.
    now rewrite (digit_not_colon h1 D1), (digit_not_colon h2 D2).
Qed.

Lemma normalizeTimeChars_fixed r :
  canonicalTime r = true -> normalizeTimeChars r = Some r.
Proof.
  intros H. destruct (canonicalTime_fixed r H) as (T & M & Z).
  now rewrite normalizeTimeChars_spec, T, M, Z.
Qed.

Lemma normalizeTimeChars_canonical raw r :
  normalizeTimeChars raw = Some r -> canonicalTime r = true.
Proof.
  rewrite normalizeTimeChars_spec.
  destruct (Spec.matchesTime (trim raw)) eqn:M; [|discriminate].
  intros [= <-]. now apply zeroPadded_canonical.
Qed.

Lemma normalizeTime_Some raw r :
  normalizeTime raw = Some r ->
  normalizeTimeChars (list_ascii_of_string raw) = Some (list_ascii_of_string r).
Proof.
  unfold normalizeTime.
  destruct (normalizeTimeChars _) as [l|]; [|discriminate].
  intros [= <-]. now rewrite list_ascii_of_string_of_list_ascii.
Qed.

(** X6.  Whatever [normalizeTime] returns is of the stored form (two-digit
    hour up to 23, colon, two-digit minute up to 59), and normalizing it
    again returns it unchanged. *)
Theorem normalizeTime_result_is_canonical :
  forall raw r,
    normalizeTime raw = Some r ->
    canonicalTime (list_ascii_of_string r) = true
    /\ normalizeTime r = Some r.
Proof.
  intros raw r H. apply normalizeTime_Some in H.
  apply normalizeTimeChars_canonical in H. split; [exact H|].
  unfold normalizeTime. rewrite (normalizeTimeChars_fixed _ H). simpl.
  now rewrite string_of_list_ascii_of_string.
Qed.

Lemma normalizeTime_result_is_canonical_witness :
  canonicalTime (list_ascii_of_string "07:05") = true
  /\ normalizeTime "07:05" = Some "07:05".
Proof.
  apply (normalizeTime_result_is_canonical "  7:05 " "07:05"). reflexivity.
Defined.

(** X7.  The times that [normalizeTime] leaves as they are are exactly the
    times of the stored form. *)
Theorem normalizeTime_fixed_points :
  forall t,
    normalizeTime t = Some t <-> canonicalTime (list_ascii_of_string t) = true.
Proof.
  intros t. split.
  - intros H. apply normalizeTime_Some in H.
    now apply normalizeTimeChars_canonical in H.
  - intros H. unfold normalizeTime. rewrite (normalizeTimeChars_fixed _ H).
    simpl. now rewrite string_of_list_ascii_of_string.
Qed.

(** ** The schema validators *)

Lemma trim_nonempty l :
  (0 <? List.length (trim l)) = negb (forallb isSpace l).
Proof.
  unfold trim, trimStart, trimEnd. rewrite dropWhileEnd_stripEnd.
  destruct (forallb isSpace l) eqn:All.
  - now rewrite (dropWhile_all _ _ All).
  - assert (exists c r, dropWhile isSpace l = c :: r /\ isSpace c = false)
      as (c & r & -> & Hc).
    { induction l as [|d l IH]; [discriminate|].
      simpl in *. destruct (isSpace d) eqn:D; [now apply IH | eauto]. }
    simpl. now rewrite Hc.
Qed.

(** X8.  [nonEmptyStringValidator] accepts exactly the strings that have a
    character other than whitespace; the validator of [agenda] and [tags]
    accepts exactly the non-empty arrays of such strings. *)
Theorem validators_accept_non_blank :
  (forall value,
     nonEmptyStringValidator value = true
     <-> exists c, In c (list_ascii_of_string value) /\ isSpace c = false)
  /\ (forall items,
        stringArrayOk items = true
        <-> items <> []
            /\ forall item, In item items ->
                 exists c, In c (list_ascii_of_string item) /\ isSpace c = false).
Proof.
  assert (forall value,
            nonEmptyStringValidator value = true
            <-> exists c, In c (list_ascii_of_string value) /\ isSpace c = false)
    as One.
  { intros value. unfold nonEmptyStringValidator. rewrite trim_nonempty.
    rewrite negb_true_iff. split.
    - intros H. induction (list_ascii_of_string value) as [|c l IH];
        [discriminate|].
      simpl in H. destruct (isSpace c) eqn:S.
      + destruct (IH H) as (d & Hd & Sd). exists d. simpl. auto.
      + exists c. simpl. auto.
    - intros (c & Hc & S).
      destruct (forallb isSpace _) eqn:All; [|reflexivity].
      rewrite forallb_forall in All. rewrite (All c Hc) in S. discriminate. }
  split; [exact One|].
  intros items. unfold stringArrayOk. rewrite andb_true_iff, forallb_forall.
  split.
  - intros [Len All]. split; [destruct items; [discriminate | discriminate]|].
    intros item Hi. apply One, All, Hi.
  - intros [Ne All]. split; [destruct items; [congruence | reflexivity]|].
    intros item Hi. apply One, All, Hi.
Qed.

(** ** Inserting events *)

Lemma sameSlug_eq a b : sameSlug a b = true <-> a = b.
Proof.
  destruct a as [x|], b as [y|]; simpl; split; try congruence.
  - intros H. apply String.eqb_eq in H. congruence.
  - intros [= ->]. apply String.eqb_refl.
Qed.

Lemma existsb_sameSlug coll v :
  existsb (fun e => sameSlug (slug e) v) coll = false ->
  ~ In v (map slug coll).
Proof.
  intros H Hin. apply in_map_iff in Hin as (e & He & Hin).
  assert (existsb (fun e => sameSlug (slug e) v) coll = true) as Y.
  { apply existsb_exists. exists e. split; [exact Hin|]. now apply sameSlug_eq. }
  congruence.
Qed.

(** What a successful [saveNew] did. *)
Lemma saveNew_Ok parseDate coll doc coll' :
  saveNew parseDate coll doc = Ok coll' ->
  exists doc',
    validate doc = []
    /\ preSave parseDate (fun _ => true) doc = Ok doc'
    /\ ~ In (slug doc') (map slug coll)
    /\ coll' = coll ++ [doc'].
Proof.
  unfold saveNew. destruct (validate doc); [|discriminate].
  destruct (preSave parseDate (fun _ => true) doc) as [doc'|]; [|discriminate].
  simpl. destruct (existsb _ coll) eqn:E; [discriminate|].
  intros [= <-]. exists doc'. repeat split; auto.
  now apply existsb_sameSlug.
Qed.

Lemma preSave_new_time parseDate (d d' : EventDocument) :
  preSave parseDate (fun _ => true) d = Ok d' ->
  normalizeTime (time d) = Some (time d')
  /\ parseDate (date d) = Some (date d') /\ title d' = title d.
Proof.
  unfold preSave. simpl.
  destruct (parseDate (date d)) as [iso|]; [simpl|discriminate].
  destruct (normalizeTime (time d)) as [t|]; [|discriminate].
  destruct (truthy (Some t)); [|discriminate].
  now intros [= <-].
Qed.

(** X9.  A successful insert appends one document and leaves the stored
    ones in place; the new document carries the slug of its title, which
    is empty or of the form the route accepts, its time is in the stored
    form, and its date is what the date parsed to. *)
Theorem saveNew_stores_normalized_document :
  forall parseDate coll doc coll',
    saveNew parseDate coll doc = Ok coll' ->
    exists doc',
      coll' = coll ++ [doc']
      /\ slug doc' = Some (slugify (title doc))
      /\ (slugify (title doc) = ""
          \/ Route.SLUG_REGEX_test (slugify (title doc)) = true)
      /\ normalizeTime (time doc) = Some (time doc')
      /\ canonicalTime (list_ascii_of_string (time doc')) = true
      /\ parseDate (date doc) = Some (date doc')
      /\ nonEmptyStringValidator (title doc') = true.
Proof.
  intros parseDate coll doc coll' H.
  apply saveNew_Ok in H as (doc' & Valid & Hook & _ & ->).
  exists doc'.
  pose proof (preSave_new_slug _ _ _ Hook) as Hs.
  destruct (preSave_new_time _ _ _ Hook) as (Ht & Hd & Htitle).
  repeat split; auto.
  - unfold Route.SLUG_REGEX_test, slugify.
    rewrite list_ascii_of_string_of_list_ascii.
    destruct (slugifyChars_canonical (list_ascii_of_string (title doc))) as [E|E];
      [left; now rewrite E | now right].
  - apply normalizeTime_Some in Ht. now apply normalizeTimeChars_canonical in Ht.
  - rewrite Htitle. unfold validate in Valid.
    destruct (stringPathOk (title doc)) eqn:T; [|discriminate].
    unfold stringPathOk in T. now apply andb_prop in T as [_ T].
Qed.

Lemma saveNew_stores_normalized_document_witness :
  exists doc',
    [setTime "09:30"
       (setDate "2025-04-10T00:00:00.000Z" (setSlug "" punctuationEvent))]
    = [] ++ [doc']
    /\ slug doc' = Some (slugify (title punctuationEvent)).
Proof.
  destruct (saveNew_stores_normalized_document
              (fun s => Some (s ++ "T00:00:00.000Z")%string) [] punctuationEvent
              _ eq_refl) as (doc' & E & S & _).
  exists doc'. split; assumption.
Defined.



(** X11.  Once an event is stored, a second event whose title gives the
    same slug cannot be inserted: if it passes validation and the hook,
    the unique index refuses it. *)
Theorem saveNew_refuses_same_slug :
  forall parseDate coll first coll1 second,
    saveNew parseDate coll first = Ok coll1 ->
    slugify (title second) = slugify (title first) ->
    (forall coll2, saveNew parseDate coll1 second <> Ok coll2)
    /\ (validate second = [] ->
        (exists d, preSave parseDate (fun _ => true) second = Ok d) ->
        saveNew parseDate coll1 second = Err (DuplicateKey "slug")).
Proof.
  intros parseDate coll first coll1 second H Same.
  apply saveNew_Ok in H as (d1 & _ & Hook1 & _ & ->).
  pose proof (preSave_new_slug _ _ _ Hook1) as S1.
  assert (forall d2, preSave parseDate (fun _ => true) second = Ok d2 ->
            existsb (fun e => sameSlug (slug e) (slug d2)) (coll ++ [d1]) = true)
    as Clash.
  { intros d2 Hook2. pose proof (preSave_new_slug _ _ _ Hook2) as S2.
    apply existsb_exists. exists d1. split; [apply in_or_app; simpl; auto|].
    apply sameSlug_eq. congruence. }
  split.
  - intros coll2 H2. unfold saveNew in H2.
    destruct (validate second); [|discriminate].
    destruct (preSave parseDate (fun _ => true) second) as [d2|] eqn:Hook2;
      [|discriminate].
    simpl in H2. now rewrite (Clash d2 eq_refl) in H2.
  - intros Valid (d2 & Hook2). unfold saveNew. rewrite Valid, Hook2. simpl.
    now rewrite (Clash d2 Hook2).
Qed.

Lemma saveNew_refuses_same_slug_witness :
  saveNew midnightUTC
    [setTime "08:30"
       (setDate "2025-04-10T00:00:00.000Z" (setSlug "cloud-next-2027" cloudEvent))]
    cloudEventAgain
  = Err (DuplicateKey "slug").
Proof.
  destruct (saveNew_refuses_same_slug midnightUTC [] cloudEvent _ cloudEventAgain
              eq_refl eq_refl) as [_ Refused].
  apply Refused; [reflexivity|]. eexists. reflexivity.
Defined.

(** ** Running the hook again *)

Lemma normalizeTime_again raw r :
  normalizeTime raw = Some r -> normalizeTime r = Some r.
Proof.
  intros H. apply normalizeTime_Some in H.
  apply normalizeTimeChars_canonical in H.
  unfold normalizeTime. rewrite (normalizeTimeChars_fixed _ H). simpl.
  now rewrite string_of_list_ascii_of_string.
Qed.

Lemma truthy_Some_reset (v : string) :
  (if negb (truthy (Some v)) then Some v else Some v) = Some v.
Proof. now destruct (negb (truthy (Some v))). Qed.

(** X12.  The hook is stable: provided the date parser returns an ISO
    string that parses to itself, running the hook on its own result, with
    the same paths marked as modified, succeeds and changes nothing. *)
Theorem preSave_stable :
  forall parseDate isModified (d d' : EventDocument),
    (forall s iso, parseDate s = Some iso -> parseDate iso = Some iso) ->
    preSave parseDate isModified d = Ok d' ->
    preSave parseDate isModified d' = Ok d'.
Proof.
  intros parseDate isModified d d' Iso H.
  destruct d as [id ti sl de ov im ve lo da tm mo au ag og tg ca ua].
  unfold preSave in *. cbv zeta in *.
  set (mt := isModified "title") in *. set (md := isModified "date") in *.
  set (mti := isModified "time") in *.
  cbn [slug title] in H.
  (* the document after the slug step of the first run *)
  assert (exists sl1,
            (if mt || negb (truthy sl)
             then setSlug (slugify ti)
                    (mkEvent id ti sl de ov im ve lo da tm mo au ag og tg ca ua)
             else mkEvent id ti sl de ov im ve lo da tm mo au ag og tg ca ua)
            = mkEvent id ti sl1 de ov im ve lo da tm mo au ag og tg ca ua
            /\ (if mt || negb (truthy sl1) then Some (slugify ti) else sl1) = sl1)
    as (sl1 & E1 & Fix).
  { destruct mt; simpl.
    - exists (Some (slugify ti)). split; reflexivity.
    - destruct (truthy sl) eqn:T; simpl.
      + exists sl. split; [reflexivity|]. now rewrite T.
      + exists (Some (slugify ti)). split; [reflexivity|].
        now destruct (truthy (Some (slugify ti))). }
  rewrite E1 in H. clear E1. simpl in H.
  assert (exists da1 tm1,
            d' = mkEvent id ti sl1 de ov im ve lo da1 tm1 mo au ag og tg ca ua
            /\ (md = true -> parseDate da1 = Some da1)
            /\ (mti = true -> normalizeTime tm1 = Some tm1
                              /\ truthy (Some tm1) = true))
    as (da1 & tm1 & -> & Hd & Ht).
  { destruct md.
    - destruct (parseDate da) as [iso|] eqn:P; [|discriminate]. simpl in H.
      destruct mti.
      + destruct (normalizeTime tm) as [t|] eqn:N; [|discriminate].
        destruct (truthy (Some t)) eqn:T; [|discriminate].
        injection H as <-. exists iso, t. repeat split; eauto.
        now apply normalizeTime_again in N.
      + injection H as <-. exists iso, tm. repeat split; eauto; discriminate.
    - simpl in H. destruct mti.
      + destruct (normalizeTime tm) as [t|] eqn:N; [|discriminate].
        destruct (truthy (Some t)) eqn:T; [|discriminate].
        injection H as <-. exists da, t. repeat split; eauto; try discriminate.
        now apply normalizeTime_again in N.
      + injection H as <-. exists da, tm. repeat split; discriminate. }
  cbn [slug title].
  assert ((if mt || negb (truthy sl1)
           then setSlug (slugify ti)
                  (mkEvent id ti sl1 de ov im ve lo da1 tm1 mo au ag og tg ca ua)
           else mkEvent id ti sl1 de ov im ve lo da1 tm1 mo au ag og tg ca ua)
          = mkEvent id ti sl1 de ov im ve lo da1 tm1 mo au ag og tg ca ua) as ->.
  { destruct (mt || negb (truthy sl1)); [|reflexivity].
    unfold setSlug. simpl. now rewrite Fix. }
  simpl.
  destruct md.
  - rewrite (Hd eq_refl). simpl. destruct mti; [|reflexivity].
    destruct (Ht eq_refl) as [N T]. rewrite N, T. reflexivity.
  - simpl. destruct mti; [|reflexivity].
    destruct (Ht eq_refl) as [N T]. rewrite N, T. reflexivity.
Qed.

Lemma preSave_stable_witness :
  preSave fixedInstant (fun _ => true)
    (setTime "08:30"
       (setDate "2025-04-10T00:00:00.000Z" (setSlug "cloud-next-2027" cloudEvent)))
  = Ok (setTime "08:30"
          (setDate "2025-04-10T00:00:00.000Z" (setSlug "cloud-next-2027" cloudEvent))).
Proof.
  apply (preSave_stable fixedInstant (fun _ => true) cloudEvent).
  - intros s iso [= <-]. reflexivity.
  - reflexivity.
Defined.

(** ** Bookings *)

Lemma at_is c : isAt c = true -> c = "@"%char.
Proof. ascii_cases c. Qed.

Lemma dot_is c : isDot c = true -> c = "."%char.
Proof. ascii_cases c. Qed.

Lemma runLength_stop p a x r :
  forallb p a = true -> p x = false ->
  runLength p (a ++ x :: r) = List.length a.
Proof.
  intros Ha Hx. induction a as [|c a IH]; simpl in *; [now rewrite Hx|].
  apply andb_prop in Ha as [Hc Ha]. rewrite Hc. now rewrite IH.
Qed.

Lemma firstn_runLength p l : forallb p (firstn (runLength p l) l) = true.
Proof.
  induction l as [|c l IH]; simpl; [reflexivity|].
  destruct (p c) eqn:Pc; simpl; [now rewrite Pc | reflexivity].
Qed.

(** X13.  [EMAIL_REGEX] accepts exactly the strings [a@b.c] whose three
    parts are non-empty and contain neither whitespace nor [@]. *)
Theorem EMAIL_REGEX_shape :
  forall l, BookingModel.EMAIL_REGEX_test l = true <-> emailShape l.
Proof.
  intros l. unfold BookingModel.EMAIL_REGEX_test, emailShape, emailPart. split.
  - set (n := runLength BookingModel.emailChar l).
    destruct (skipn n l) as [|x domain] eqn:Sk; [discriminate|].
    intros H.
    apply andb_prop in H as [H Dot]. apply andb_prop in H as [H Dom].
    apply andb_prop in H as [Pos At].
    apply Nat.ltb_lt in Pos. apply at_is in At. subst x.
    apply existsb_exists in Dot as (d & Hin & Hd). apply dot_is in Hd. subst d.
    destruct domain as [|d0 t]; [contradiction|]. simpl in Hin.
    assert (t <> []) as Ht by (intros ->; contradiction).
    destruct (exists_last Ht) as (t' & z & ->).
    rewrite removelast_last in Hin.
    apply in_split in Hin as (u & v & ->).
    exists (firstn n l), (d0 :: u), (v ++ [z]).
    simpl in Dom. apply andb_prop in Dom as [D0 Dom].
    rewrite <- app_assoc in Dom. simpl in Dom.
    rewrite forallb_app in Dom. apply andb_prop in Dom as [Du Dom].
    simpl in Dom. rename Dom into Dv.
    repeat split.
    + rewrite <- (firstn_skipn n l) at 1. rewrite Sk.
      now rewrite <- app_assoc.
    + intros E. apply (f_equal (@List.length ascii)) in E.
      rewrite length_firstn in E. simpl in E.
      pose proof (runLength_le BookingModel.emailChar l). fold n in H. lia.
    + apply firstn_runLength.
    + discriminate.
    + simpl. now rewrite D0, Du.
    + destruct v; discriminate.
    + exact Dv.
  - intros (a & b & c & -> & [Na Ha] & [Nb Hb] & [Nc Hc]).
    rewrite (runLength_stop _ a "@"%char _ Ha eq_refl).
    rewrite skipn_app, skipn_all, Nat.sub_diag. simpl.
    destruct b as [|b0 b]; [congruence|].
    simpl in Hb. apply andb_prop in Hb as [Hb0 Hb].
    simpl. rewrite Hb0, forallb_app, Hb. simpl. rewrite Hc.
    assert ((0 <? List.length a) = true) as ->
      by (destruct a; [congruence | reflexivity]).
    simpl. rewrite removelast_app by discriminate.
    rewrite existsb_app. simpl. destruct c; [congruence|].
    simpl. apply orb_true_r.
Qed.


(** ** The connection cache, once the attempt is settled *)

Lemma nth_error_update_cases {A} i j (x y : A) l :
  nth_error (update i x l) j = Some y ->
  (j = i /\ y = x) \/ nth_error l j = Some y.
Proof.
  revert i j. induction l as [|z l IH]; intros [|i] [|j]; simpl; auto.
  - intros [= <-]. auto.
  - intros H. destruct (IH i j H) as [[-> ->]|]; auto.
Qed.

Lemma handleInv_init n : handleInv (init n).
Proof.
  split; [apply cacheInv_init|]. split.
  - intros i h H. simpl in H. apply nth_error_In, repeat_spec in H. discriminate.
  - simpl. split; [discriminate | congruence].
Qed.

Lemma handleInv_step ev s s' : handleInv s -> step ev s = Some s' -> handleInv s'.
Proof.
  intros (Inv & Ret & Pub) Step.
  split; [eapply cacheInv_step; eauto|].
  destruct s as [[cn pr] pub hp ks]. simpl in *.
  destruct ev as [i | q r | i]; simpl in Step.
  - destruct (nth_error ks i) as [[| | |]|] eqn:Ki; try discriminate.
    unfold enter in Step. simpl in Step.
    destruct cn as [h|]; [|destruct pr as [p|]]; injection Step as <-; simpl;
      (split; [|exact Pub]); intros j h' Hj;
      apply nth_error_update_cases in Hj as [[_ E]|Hj]; eauto;
      try discriminate; congruence.
  - destruct (nth_error hp q) as [[| |]|]; try discriminate.
    injection Step as <-. simpl. split; assumption.
  - destruct (nth_error ks i) as [[|q| |]|] eqn:Ki; try discriminate.
    destruct (nth_error hp q) as [outcome|] eqn:Hq; try discriminate.
    unfold cacheInv in Inv. simpl in Inv.
    destruct hp as [|p [|]]; [destruct q; discriminate| |contradiction].
    destruct (heap_singleton [p] q outcome Hq) as [-> E]; [simpl; lia|].
    injection E as ->. destruct Inv as (_ & _ & All).
    destruct outcome as [|h|e]; simpl in Step; try discriminate;
      injection Step as <-; simpl.
    + split.
      * intros j h' Hj. apply nth_error_update_cases in Hj as [[_ E]|Hj];
          [congruence|].
        pose proof (Forall_nth_error _ _ _ _ All Hj) as Pj. simpl in Pj.
        congruence.
      * split; [discriminate | reflexivity].
    + split; [|exact Pub]. intros j h' Hj.
      apply nth_error_update_cases in Hj as [[_ E]|Hj]; [discriminate | eauto].
Qed.

Lemma handleInv_run tr : forall s s', handleInv s -> run tr s = Some s' -> handleInv s'.
Proof.
  induction tr as [|ev tr IH]; simpl; intros s s' Inv Run.
  - now injection Run as <-.
  - destruct (step ev s) as [s1|] eqn:Step; [|discriminate].
    eapply IH; [|exact Run]. eapply handleInv_step; eauto.
Qed.

(** X15.  Once a caller has returned a handle, any later call returns that
    handle at its entry: it does not wait, starts no attempt and leaves the
    cache as it is. *)
Theorem live_handle_is_returned_at_once :
  forall n tr s i j h,
    run tr (init n) = Some s ->
    nth_error (callers s) j = Some (Returned h) ->
    nth_error (callers s) i = Some NotCalled ->
    step (Call i) s
    = Some (mkState (cached s) (published s) (heap s)
              (update i (Returned h) (callers s))).
Proof.
  intros n tr s i j h Run Hj Hi.
  destruct (handleInv_run tr _ _ (handleInv_init n) Run) as (_ & Ret & _).
  specialize (Ret j h Hj).
  unfold step. rewrite Hi. unfold enter. now rewrite Ret.
Qed.

Lemma live_handle_is_returned_at_once_witness :
  run [Call 0; Settle 0 (Ok 5); Resume 0; Call 1] (init 2)
  = Some (mkState (mkCache (Some 5) (Some 0)) true [Fulfilled 5]
            [Returned 5; Returned 5]).
Proof.
  assert (run [Call 0; Settle 0 (Ok 5); Resume 0] (init 2)
          = Some (mkState (mkCache (Some 5) (Some 0)) true [Fulfilled 5]
                    [Returned 5; NotCalled])) as Run by reflexivity.
  change (run [Call 0; Settle 0 (Ok 5); Resume 0; Call 1] (init 2))
    with (step (Call 1) (mkState (mkCache (Some 5) (Some 0)) true [Fulfilled 5]
                           [Returned 5; NotCalled])).
  exact (live_handle_is_returned_at_once 2 _ _ 1 0 5 Run eq_refl eq_refl).
Defined.

(** X16.  Every caller gets the outcome of the one attempt: a caller that
    returned [h] means the attempt was fulfilled with [h], which is now the
    cached and published handle; a caller that threw [e] means the attempt
    was rejected with [e], and the cache holds no handle and is not
    published. *)
Theorem callers_get_the_outcome_of_the_attempt :
  forall n tr s i k,
    run tr (init n) = Some s ->
    nth_error (callers s) i = Some k ->
    match k with
    | Returned h =>
        heap s = [Fulfilled h] /\ conn (cached s) = Some h /\ published s = true
    | Threw e =>
        heap s = [Rejected e] /\ conn (cached s) = None /\ published s = false
    | Awaiting p => p = 0 /\ List.length (heap s) = 1
    | NotCalled => True
    end.
Proof.
  intros n tr s i k Run Hi.
  destruct (handleInv_run tr _ _ (handleInv_init n) Run) as (Inv & Ret & Pub).
  unfold cacheInv in Inv.
  destruct (heap s) as [|p [|]] eqn:Hp; [| |contradiction].
  - destruct Inv as [_ All].
    pose proof (Forall_nth_error _ _ _ _ All Hi) as ->. exact I.
  - destruct Inv as (_ & Hc & All).
    pose proof (Forall_nth_error _ _ _ _ All Hi) as Pk.
    destruct k as [|q|h|e]; simpl in Pk; auto.
    + subst p. pose proof (Ret i h Hi) as C. repeat split; auto.
      apply Pub. congruence.
    + subst p.
      assert (conn (cached s) = None) as C.
      { destruct (conn (cached s)) as [h|] eqn:C; [|reflexivity].
        specialize (Hc h eq_refl). discriminate. }
      repeat split; auto.
      destruct (published s) eqn:P; [|reflexivity].
      destruct Pub as [Pub _]. now specialize (Pub eq_refl).
Qed.

Lemma callers_get_the_outcome_of_the_attempt_witness :
  heap (mkState (mkCache None (Some 0)) false [Rejected 9] [Threw 9; Awaiting 0])
  = [Rejected 9]
  /\ conn (cached (mkState (mkCache None (Some 0)) false [Rejected 9]
                     [Threw 9; Awaiting 0])) = None
  /\ published (mkState (mkCache None (Some 0)) false [Rejected 9]
                  [Threw 9; Awaiting 0]) = false.
Proof.
  exact (callers_get_the_outcome_of_the_attempt 2
           [Call 0; Call 1; Settle 0 (Err 9); Resume 0] _ 0 (Threw 9)
           eq_refl eq_refl).
Defined.

(** ** The handler and the database *)

(** The handler, case by case. *)
Lemma GET_cases be req :
  Route.GET be req =
  match Route.getSlug req with
  | None => (Route.missingSlug, [])
  | Some s =>
      if (s =? "")%string then (Route.missingSlug, [])
      else if Route.SLUG_REGEX_test s then
        match Route.connectToDatabase be with
        | Err _ => (Route.jsonError "Unexpected server error." 500, [Route.CallConnect])
        | Ok _ =>
            match Route.findOne be s with
            | Err _ => (Route.jsonError "Unexpected server error." 500,
                        [Route.CallConnect; Route.CallFindOne s])
            | Ok None => (Route.jsonError "Event not found." 404,
                          [Route.CallConnect; Route.CallFindOne s])
            | Ok (Some ev) =>
                (Route.mkResponse 200 "Event fetched successfully" (Some ev),
                 [Route.CallConnect; Route.CallFindOne s])
            end
        end
      else (Route.invalidSlug, [])
  end.
Proof.
  unfold Route.GET, Route.tryBody.
  destruct (Route.getSlug req) as [s|]; [|reflexivity].
  destruct (s =? "")%string; [reflexivity|].
  destruct (Route.SLUG_REGEX_test s); [|reflexivity].
  simpl. unfold Route.andThen, Route.await.
  destruct (Route.connectToDatabase be); [|reflexivity]. simpl.
  destruct (Route.findOne be s) as [[ev|]|]; reflexivity.
Qed.

(** X17.  The handler touches the database only for a slug of the
    canonical form: it then connects first and, if the connection is up,
    looks the requested slug up once; it makes no other call. *)
Theorem GET_database_calls :
  forall be req,
    snd (Route.GET be req) = []
    \/ exists s,
         Route.getSlug req = Some s
         /\ Spec.canonicalSlug (list_ascii_of_string s)
         /\ ((snd (Route.GET be req) = [Route.CallConnect]
              /\ exists e, Route.connectToDatabase be = Err e)
             \/ (snd (Route.GET be req) = [Route.CallConnect; Route.CallFindOne s]
                 /\ exists h, Route.connectToDatabase be = Ok h)).
Proof.
  intros be req. rewrite GET_cases.
  destruct (Route.getSlug req) as [s|]; [|now left].
  destruct (s =? "")%string; [now left|].
  destruct (Route.SLUG_REGEX_test s) eqn:R; [|now left].
  right. exists s. apply SLUG_REGEX_canonical in R.
  split; [reflexivity|]. split; [exact R|].
  destruct (Route.connectToDatabase be) as [h|e]; [|left; eauto].
  right. destruct (Route.findOne be s) as [[ev|]|]; eauto.
Qed.

(** X18.  The status of the response tells what happened: 500 exactly when
    the slug is canonical and the connection or the lookup threw, 200
    exactly when the lookup returned an event, which is then the event of
    the response; and the status is always one of 200, 400, 404, 500. *)
Theorem GET_status :
  forall be req,
    let response := fst (Route.GET be req) in
    (Route.status response = 500
     <-> exists s,
           Route.getSlug req = Some s
           /\ Spec.canonicalSlug (list_ascii_of_string s)
           /\ ((exists e, Route.connectToDatabase be = Err e)
               \/ (exists e, Route.findOne be s = Err e)))
    /\ (Route.status response = 200
        <-> exists s h ev,
              Route.getSlug req = Some s
              /\ Spec.canonicalSlug (list_ascii_of_string s)
              /\ Route.connectToDatabase be = Ok h
              /\ Route.findOne be s = Ok (Some ev)
              /\ Route.event response = Some ev)
    /\ In (Route.status response) [200; 400; 404; 500].
Proof.
  intros be req response. subst response. rewrite GET_cases.
  destruct (Route.getSlug req) as [s|] eqn:G.
  2:{ simpl. repeat split; try discriminate; try tauto.
      - intros (s & E & _). discriminate.
      - intros (s & h & ev & E & _). discriminate. }
  destruct (s =? "")%string eqn:Es.
  { apply String.eqb_eq in Es. subst s. simpl.
    repeat split; try discriminate; try tauto.
    - intros (s & [= <-] & C & _). apply SLUG_REGEX_canonical in C. discriminate.
    - intros (s & h & ev & [= <-] & C & _).
      apply SLUG_REGEX_canonical in C. discriminate. }
  destruct (Route.SLUG_REGEX_test s) eqn:R.
  2:{ simpl. repeat split; try discriminate; try tauto.
      - intros (s' & [= <-] & C & _). apply SLUG_REGEX_canonical in C. congruence.
      - intros (s' & h & ev & [= <-] & C & _).
        apply SLUG_REGEX_canonical in C. congruence. }
  pose proof (proj1 (SLUG_REGEX_canonical s) R) as C.
  destruct (Route.connectToDatabase be) as [h|e] eqn:Conn.
  2:{ simpl. repeat split; try discriminate; try tauto.
      - intros _. exists s. eauto 6.
      - intros (s' & h & ev & _ & _ & E & _). discriminate. }
  destruct (Route.findOne be s) as [[ev|]|e] eqn:F; simpl.
  - repeat split; try discriminate; try tauto.
    + intros (s' & [= <-] & _ & [(e & E)|(e & E)]); congruence.
    + intros _. exists s, h, ev. auto.
  - repeat split; try discriminate; try tauto.
    + intros (s' & [= <-] & _ & [(e & E)|(e & E)]); congruence.
    + intros (s' & h' & ev & [= <-] & _ & _ & E & _). congruence.
  - repeat split; try discriminate; try tauto.
    + intros _. exists s. eauto 6.
    + intros (s' & h' & ev & [= <-] & _ & _ & E & _). congruence.
Qed.

(** X19.  [getSlug] prefers the route parameter: a non-blank parameter is
    returned as it is, whatever the query string holds; otherwise a
    non-blank query value is; a blank value is never returned. *)
Theorem getSlug_prefers_route_parameter :
  forall req,
    (forall s, Route.params req = Ok (Some s) -> Route.nonBlank s = true ->
               Route.getSlug req = Some s)
    /\ (forall s, Route.getSlug req = Some s ->
                  Route.nonBlank s = true
                  /\ (Route.params req = Ok (Some s)
                      \/ Route.querySlug req = Some s))
    /\ (forall q, Route.querySlug req = Some q -> Route.nonBlank q = true ->
                  (forall s, Route.params req = Ok (Some s) ->
                             Route.nonBlank s = false) ->
                  Route.getSlug req = Some q).
Proof.
  intros [p q]. unfold Route.getSlug. simpl. split; [|split].
  - intros s -> ->. reflexivity.
  - intros s.
    destruct p as [[p|]|e].
    + destruct (Route.nonBlank p) eqn:B.
      * intros [= <-]. split; [exact B | now left].
      * intros H. destruct q as [q0|]; [|discriminate].
        destruct (Route.nonBlank q0) eqn:Bq; [|discriminate].
        injection H as <-. split; [exact Bq | now right].
    + intros H. destruct q as [q0|]; [|discriminate].
      destruct (Route.nonBlank q0) eqn:Bq; [|discriminate].
      injection H as <-. split; [exact Bq | now right].
    + intros H. destruct q as [q0|]; [|discriminate].
      destruct (Route.nonBlank q0) eqn:Bq; [|discriminate].
      injection H as <-. split; [exact Bq | now right].
  - intros q' -> Bq Blank.
    destruct p as [[p|]|e]; rewrite ?Bq; try reflexivity.
    now rewrite (Blank p eq_refl).
Qed.

Lemma find_last {A} (f : A -> bool) l x :
  (forall e, In e l -> f e = false) -> f x = true ->
  find f (l ++ [x]) = Some x.
Proof.
  intros Hl Hx. induction l as [|y l IH]; simpl; [now rewrite Hx|].
  rewrite (Hl y) by (simpl; auto). apply IH. intros e He. apply Hl. simpl. auto.
Qed.

Lemma slugChar_not_space c : slugChar c = true -> isSpace c = false.
Proof. ascii_cases c. Qed.

(** A non-empty slug passes every test of the handler. *)
Lemma slug_passes_handler_tests T :
  slugify T <> "" ->
  Route.nonBlank (slugify T) = true
  /\ (slugify T =? "")%string = false
  /\ Route.SLUG_REGEX_test (slugify T) = true.
Proof.
  intros Ne.
  assert (slugifyChars (list_ascii_of_string T) <> []) as NeC.
  { intros E. apply Ne. unfold slugify. now rewrite E. }
  split; [|split].
  - unfold Route.nonBlank, slugify.
    rewrite list_ascii_of_string_of_list_ascii, trim_nonempty.
    pose proof (stripEnd_slugChars isHyphen _
                  (collapse_slugChars true (toLowerCase (list_ascii_of_string T))))
      as Chars.
    rewrite <- slugifyChars_collapse in Chars.
    destruct (slugifyChars (list_ascii_of_string T)) as [|c r]; [congruence|].
    simpl in *. apply andb_prop in Chars as [Hc _].
    now rewrite (slugChar_not_space c Hc).
  - now apply String.eqb_neq.
  - unfold Route.SLUG_REGEX_test, slugify.
    rewrite list_ascii_of_string_of_list_ascii.
    destruct (slugifyChars_canonical (list_ascii_of_string T)); [congruence|assumption].
Qed.

(** X20.  An event that was inserted and whose slug is not empty is found
    again: asking the handler for the slug of its title, as route
    parameter, answers 200 with the stored document, after one connect and
    one lookup. *)
Theorem stored_event_is_found_by_its_slug :
  forall parseDate coll doc coll' h query,
    saveNew parseDate coll doc = Ok coll' ->
    slugify (title doc) <> "" ->
    exists doc',
      coll' = coll ++ [doc']
      /\ Route.GET (backendOf h coll')
           (Route.mkRequest (Ok (Some (slugify (title doc)))) query)
         = (Route.mkResponse 200 "Event fetched successfully" (Some doc'),
            [Route.CallConnect; Route.CallFindOne (slugify (title doc))]).
Proof.
  intros parseDate coll doc coll' h query H Ne.
  apply saveNew_Ok in H as (doc' & _ & Hook & Fresh & ->).
  exists doc'. split; [reflexivity|].
  pose proof (preSave_new_slug _ _ _ Hook) as Hs.
  destruct (slug_passes_handler_tests _ Ne) as (B & E & R).
  rewrite GET_cases. unfold Route.getSlug. simpl. rewrite B, E, R.
  unfold findOneIn. rewrite find_last; [reflexivity| |].
  - intros e He. destruct (sameSlug (slug e) (Some (slugify (title doc)))) eqn:S;
      [|reflexivity].
    apply sameSlug_eq in S. exfalso. apply Fresh. rewrite Hs, <- S.
    now apply in_map.
  - apply sameSlug_eq. exact Hs.
Qed.

Lemma stored_event_is_found_by_its_slug_witness :
  Route.GET
    (backendOf 0
       [setTime "08:30"
          (setDate "2025-04-10T00:00:00.000Z" (setSlug "cloud-next-2027" cloudEvent))])
    (Route.mkRequest (Ok (Some "cloud-next-2027")) None)
  = (Route.mkResponse 200 "Event fetched successfully"
       (Some (setTime "08:30"
                (setDate "2025-04-10T00:00:00.000Z"
                   (setSlug "cloud-next-2027" cloudEvent)))),
     [Route.CallConnect; Route.CallFindOne "cloud-next-2027"]).
Proof.
  destruct (stored_event_is_found_by_its_slug midnightUTC [] cloudEvent _ 0 None
              eq_refl) as (doc' & E & Found); [discriminate|].
  injection E as <-. exact Found.
Defined.

(** X21.  Whatever the request, an event in the response is a stored event
    whose slug is the requested one, and that slug is of the canonical
    form: an event stored with an empty slug, or with none, is never
    returned. *)
Theorem GET_returns_only_the_requested_event :
  forall h coll req ev,
    Route.event (fst (Route.GET (backendOf h coll) req)) = Some ev ->
    exists s,
      Route.getSlug req = Some s
      /\ Spec.canonicalSlug (list_ascii_of_string s)
      /\ s <> ""
      /\ slug ev = Some s
      /\ In ev coll.
Proof.
  intros h coll req ev. rewrite GET_cases.
  destruct (Route.getSlug req) as [s|]; [|discriminate].
  destruct (s =? "")%string eqn:Es; [discriminate|].
  destruct (Route.SLUG_REGEX_test s) eqn:R; [|discriminate].
  simpl. destruct (findOneIn coll s) as [found|] eqn:F; [|discriminate].
  simpl. intros [= <-]. exists s.
  apply SLUG_REGEX_canonical in R. apply String.eqb_neq in Es.
  unfold findOneIn in F. apply find_some in F as [Hin Same].
  apply sameSlug_eq in Same. auto.
Qed.

Lemma GET_returns_only_the_requested_event_witness :
  exists s,
    Route.getSlug (Route.mkRequest (Err "no params") (Some "cloud-next")) = Some s
    /\ Spec.canonicalSlug (list_ascii_of_string s)
    /\ s <> ""
    /\ slug renamedEvent = Some s
    /\ In renamedEvent [punctuationEvent; renamedEvent].
Proof.
  exact (GET_returns_only_the_requested_event 0 [punctuationEvent; renamedEvent]
           (Route.mkRequest (Err "no params") (Some "cloud-next")) renamedEvent
           eq_refl).
Defined.

(** ** The slugs the route accepts *)

Lemma slugRest_is_slug_shaped l b :
  Route.slugRest b l = true ->
  forallb slugChar l = true
  /\ noDoubleHyphen l = true
  /\ stripEnd isHyphen l = l
  /\ (b = false -> startsWithHyphen l = false /\ l <> []).
Proof.
  revert b. induction l as [|c r IH]; intros b H.
  - simpl in H. subst b. repeat split; discriminate.
  - simpl in H. destruct (isLowerAlnum c) eqn:A.
    + destruct (IH true H) as (Hs & Hn & He & _).
      pose proof (alnum_not_hyphen c A) as NH.
      repeat split.
      * simpl. unfold slugChar at 1. now rewrite A, Hs.
      * simpl. now rewrite NH, Hn.
      * rewrite stripEnd_cons, He, NH. now destruct r.
      * simpl. exact NH.
      * discriminate.
    + destruct (isHyphen c) eqn:Hy; [|discriminate].
      destruct b; [|discriminate]. simpl in H.
      destruct (IH false H) as (Hs & Hn & He & Hb).
      destruct (Hb eq_refl) as [Hh Hne].
      repeat split; try discriminate.
      * simpl. unfold slugChar at 1. now rewrite A, Hy, Hs.
      * simpl. now rewrite Hy, Hh, Hn.
      * rewrite stripEnd_cons, He. destruct r; [congruence | reflexivity].
Qed.

(** X22.  The route accepts exactly the non-empty strings that [slugify]
    leaves as they are: every slug it accepts is the slug of itself, and
    nothing else is. *)
Theorem SLUG_REGEX_accepts_the_slugs :
  forall s,
    Route.SLUG_REGEX_test s = true <-> s <> "" /\ slugify s = s.
Proof.
  intros s. unfold Route.SLUG_REGEX_test, slugify. split.
  - intros H.
    destruct (slugRest_is_slug_shaped _ _ H) as (Hs & Hn & He & Hb).
    destruct (Hb eq_refl) as [Hh Hne].
    split; [intros ->; now apply Hne|].
    rewrite slugifyChars_collapse, (toLowerCase_slugChars _ Hs).
    rewrite (proj2 (collapse_fixes_slugs _ Hs Hn) Hh), He.
    apply string_of_list_ascii_of_string.
  - intros [Ne Fix].
    destruct (slugifyChars_canonical (list_ascii_of_string s)) as [E|E].
    + rewrite E in Fix. simpl in Fix. congruence.
    + rewrite <- Fix at 1. now rewrite list_ascii_of_string_of_list_ascii.
Qed.
